(** * Exact-match lookup and weighted average over cached CSV tables

    A shallow embedding of [src/tasks.py] ([task1], [task2] and the
    module-level [_cache]) together with the parts of the Python standard
    library the two functions call: [io.StringIO] line iteration, the
    [csv] reader for the default (excel) dialect, [csv.DictReader],
    [str.strip], [str], [int], true division of integers and the
    [.1f] format.  Library behaviour is that of CPython 3.11.

    Python [str] values are modelled by [string]; a character is a code
    point below 256.  Python [int] is [Z].  A [dict] with string keys is a
    [gmap string _], a [set] of strings a [gset string]. *)

From Stdlib Require Import ZArith Lia Ascii String.
From stdpp Require Import base strings gmap list pretty.

Local Open Scope string_scope.
Local Open Scope Z_scope.
#[local] Set Warnings "-clear-no-such-hyp".

(** ** Exceptions and fallible results *)

Inductive exn : Type :=
  | KeyError (key : string)      (* d[key] on a missing key *)
  | KeyMismatch                  (* Exception('Key mismatch'), tasks.py:48 *)
  | ValueError                   (* int(s) on a malformed literal *)
  | TypeError                    (* int(None) *)
  | AttributeError               (* v.strip() on a list *)
  | OverflowError                (* int / int beyond the float range *)
  | ZeroDivisionError
  | CsvError.                    (* _csv.Error raised by the reader *)

Inductive result (A : Type) : Type :=
  | Ok (a : A)
  | Raise (e : exn).
Arguments Ok {A} a.
Arguments Raise {A} e.

#[global] Instance exn_eq_dec : EqDecision exn.
Proof. solve_decision. Defined.

#[global] Instance result_eq_dec `{EqDecision A} : EqDecision (result A).
Proof. solve_decision. Defined.

#[global] Instance result_ret : MRet result := @Ok.
#[global] Instance result_bind : MBind result := λ A B f r,
  match r with Ok a => f a | Raise e => Raise e end.
#[global] Instance result_fmap : FMap result := λ A B f r,
  match r with Ok a => Ok (f a) | Raise e => Raise e end.

(** [d[key]]: subscript of a dict. *)
Definition getitem {V} (d : gmap string V) (key : string) : result V :=
  match d !! key with Some v => Ok v | None => Raise (KeyError key) end.

(** ** Python strings *)

Module Py.

Definition code (c : ascii) : Z := Z.of_N (N_of_ascii c).

Definition in_range (lo hi : Z) (c : ascii) : bool :=
  (lo <=? code c) && (code c <=? hi).

(** [str.isspace] on one character (code points below 256):
    TAB..CR, FS..US, SPACE, NEL, NBSP. *)
Definition isspace (c : ascii) : bool :=
  in_range 9 13 c || in_range 28 32 c || (code c =? 133) || (code c =? 160).

(** Membership of a character in the argument of [str.strip(chars)]. *)
Fixpoint char_in (chars : string) (c : ascii) : bool :=
  match chars with
  | EmptyString => false
  | String d chars' => Ascii.eqb c d || char_in chars' c
  end.

Fixpoint lstrip (p : ascii → bool) (s : string) : string :=
  match s with
  | EmptyString => EmptyString
  | String c s' => if p c then lstrip p s' else s
  end.

Fixpoint rstrip (p : ascii → bool) (s : string) : string :=
  match s with
  | EmptyString => EmptyString
  | String c s' =>
      match rstrip p s' with
      | EmptyString => if p c then EmptyString else String c EmptyString
      | r => String c r
      end
  end.

(** [s.strip()] is [strip isspace s]; [s.strip(chars)] is
    [strip (char_in chars) s]. *)
Definition strip (p : ascii → bool) (s : string) : string :=
  rstrip p (lstrip p s).

(** Scalars a query may hold. *)
Inductive value : Type :=
  | VInt (n : Z)
  | VStr (s : string)
  | VBool (b : bool)
  | VNone.

(** The limit on the number of decimal digits in a conversion between
    [int] and [str] (sys.int_max_str_digits, 4300 unless changed). *)
Definition int_max_str_digits : Z := 4300.

(** The least natural number with more than [int_max_str_digits]
    decimal digits, as a numeral. *)
Definition str_limit : Z := Eval vm_compute in 10 ^ int_max_str_digits.

(** [str(v)].  An [int] of more than [int_max_str_digits] decimal
    digits, the sign not counted, is a [ValueError]. *)
Definition str (v : value) : result string :=
  match v with
  | VInt n =>
      if str_limit <=? Z.abs n then Raise ValueError
      else Ok (pretty n)
  | VStr s => Ok s
  | VBool true => Ok "True"
  | VBool false => Ok "False"
  | VNone => Ok "None"
  end.

(** *** [int(s)] for a [str] argument, base 10.

    Surrounding white space is skipped (the ASCII white space of the
    C parser, and NEL and NBSP which [int] first rewrites to a space),
    then an optional sign, then digits with single underscores between
    them.  More than [int_max_str_digits] digits is a [ValueError]. *)

Definition int_isspace (c : ascii) : bool :=
  in_range 9 13 c || (code c =? 32) || (code c =? 133) || (code c =? 160).

Definition isdigit (c : ascii) : bool := in_range 48 57 c.

Fixpoint int_body (s : string) (acc ndigits : Z) (after_digit : bool)
  : option (Z * Z) :=
  match s with
  | EmptyString => if after_digit then Some (acc, ndigits) else None
  | String c s' =>
      if isdigit c then int_body s' (10 * acc + (code c - 48)) (ndigits + 1) true
      else if Ascii.eqb c "_"%char && after_digit then int_body s' acc ndigits false
      else None
  end.

Definition int_unsigned (s : string) : result Z :=
  match int_body s 0 0 false with
  | Some (n, ndigits) =>
      if int_max_str_digits <? ndigits then Raise ValueError else Ok n
  | None => Raise ValueError
  end.

Definition int_of_str (s : string) : result Z :=
  match strip int_isspace s with
  | String "-"%char s' => Z.opp <$> int_unsigned s'
  | String "+"%char s' => int_unsigned s'
  | s' => int_unsigned s'
  end.

(** [int(v)] where [v] is a table field: a [str] or [None]. *)
Definition int (v : option string) : result Z :=
  match v with
  | Some s => int_of_str s
  | None => Raise TypeError
  end.

(** *** Floats: [a / b] on integers and the [.1f] format

    A float is kept as the exact binary64 number it denotes,
    [(-1)^neg * mant * 2^exp] with [0 <= mant <= 2^53], so that division
    and formatting are exact integer computations. *)

Record float : Type := Float { f_neg : bool; f_mant : Z; f_exp : Z }.

(** [a / b] rounded to the nearest integer, ties to the even one
    ([0 <= a], [0 < b]). *)
Definition round_half_even (a b : Z) : Z :=
  let q := a / b in
  match 2 * (a mod b) ?= b with
  | Lt => q
  | Gt => q + 1
  | Eq => if Z.even q then q else q + 1
  end.

(** [2^k <= n / d], for positive [n] and [d]. *)
Definition ratio_ge_pow2 (n d k : Z) : bool :=
  if 0 <=? k then d * 2 ^ k <=? n else d <=? n * 2 ^ (- k).

(** [floor (log2 (n / d))], for positive [n] and [d]. *)
Definition log2_ratio (n d : Z) : Z :=
  let k := Z.log2 n - Z.log2 d in
  if ratio_ge_pow2 n d k then k else k - 1.

(** [a / b] for two [int]s: the binary64 number nearest to the exact
    quotient (ties to even, subnormals included), [OverflowError] when
    that is 2^1024 or more, a signed zero for [a = 0]. *)
Definition true_div (a b : Z) : result float :=
  if b =? 0 then Raise ZeroDivisionError else
  let neg := xorb (a <? 0) (b <? 0) in
  let n := Z.abs a in
  let d := Z.abs b in
  if n =? 0 then Ok (Float neg 0 0) else
  let e := Z.max (log2_ratio n d - 52) (-1074) in
  let m := if 0 <=? e then round_half_even n (d * 2 ^ e)
           else round_half_even (n * 2 ^ (- e)) d in
  if (0 <=? e) && (2 ^ 1024 <=? m * 2 ^ e) then Raise OverflowError
  else Ok (Float neg m e).

(** [|x| * 10] rounded to an integer, ties to even: the digits of
    [x] to one decimal place. *)
Definition tenths (x : float) : Z :=
  if 0 <=? f_exp x then 10 * f_mant x * 2 ^ f_exp x
  else round_half_even (10 * f_mant x) (2 ^ (- f_exp x)).

(** [f"{x:.1f}"]. *)
Definition format_1f (x : float) : string :=
  (if f_neg x then "-" else "")
  +:+ pretty (tenths x / 10) +:+ "." +:+ pretty (tenths x mod 10).

End Py.

Arguments Py.str : simpl never.

#[global] Instance value_eq_dec : EqDecision Py.value.
Proof. solve_decision. Defined.

(** ** [io.StringIO] and the [csv] module *)

Module Csv.

Definition LF : ascii := "010"%char.
Definition CR : ascii := "013"%char.
Definition quotechar : ascii := "034"%char.
Definition delimiter : ascii := ","%char.

(** Iterating [StringIO(data)]: the lines of [data], each with its
    terminating LF (the last one may lack it).  No newline translation. *)
Fixpoint readlines (data : string) : list string :=
  match data with
  | EmptyString => []
  | String c rest =>
      if Ascii.eqb c LF then String c EmptyString :: readlines rest
      else match readlines rest with
           | [] => [String c EmptyString]
           | line :: lines => String c line :: lines
           end
  end.

(** States of the reader's parser that the excel dialect can reach
    (it has no escape character). *)
Inductive parser_state : Type :=
  | START_RECORD
  | START_FIELD
  | IN_FIELD
  | IN_QUOTED_FIELD
  | QUOTE_IN_QUOTED_FIELD
  | EAT_CRNL.

#[global] Instance parser_state_eq_dec : EqDecision parser_state.
Proof. solve_decision. Defined.

Record reader : Type := Reader {
  state : parser_state;
  fields : list string;      (* fields of the record being read *)
  field : string             (* characters of the field being read *)
}.

Definition field_limit : Z := 131072.

Definition parse_reset : reader := Reader START_RECORD [] EmptyString.

Definition set_state (st : parser_state) (r : reader) : reader :=
  Reader st (fields r) (field r).

Definition parse_save_field (r : reader) : reader :=
  Reader (state r) (fields r ++ [field r])%list EmptyString.

Definition parse_add_char (c : ascii) (r : reader) : result reader :=
  if field_limit <=? Z.of_nat (String.length (field r)) then Raise CsvError
  else Ok (Reader (state r) (fields r) (field r +:+ String c EmptyString)).

(** A character of a line, or the end of the line. *)
Inductive input : Type :=
  | Char (c : ascii)
  | EOL.

Definition is_newline (i : input) : bool :=
  match i with
  | Char c => Ascii.eqb c LF || Ascii.eqb c CR
  | EOL => false
  end.

Definition start_field (i : input) (r : reader) : result reader :=
  match i with
  | EOL => Ok (set_state START_RECORD (parse_save_field r))
  | Char c =>
      if is_newline i then Ok (set_state EAT_CRNL (parse_save_field r))
      else if Ascii.eqb c quotechar then Ok (set_state IN_QUOTED_FIELD r)
      else if Ascii.eqb c delimiter then Ok (parse_save_field r)
      else set_state IN_FIELD <$> parse_add_char c r
  end.

Definition parse_process_char (i : input) (r : reader) : result reader :=
  match state r with
  | START_RECORD =>
      match i with
      | EOL => Ok r
      | Char c =>
          if is_newline i then Ok (set_state EAT_CRNL r)
          else start_field i (set_state START_FIELD r)
      end
  | START_FIELD => start_field i r
  | IN_FIELD =>
      match i with
      | EOL => Ok (set_state START_RECORD (parse_save_field r))
      | Char c =>
          if is_newline i then Ok (set_state EAT_CRNL (parse_save_field r))
          else if Ascii.eqb c delimiter
               then Ok (set_state START_FIELD (parse_save_field r))
          else parse_add_char c r
      end
  | IN_QUOTED_FIELD =>
      match i with
      | EOL => Ok r
      | Char c =>
          if Ascii.eqb c quotechar then Ok (set_state QUOTE_IN_QUOTED_FIELD r)
          else parse_add_char c r
      end
  | QUOTE_IN_QUOTED_FIELD =>
      match i with
      | EOL => Ok (set_state START_RECORD (parse_save_field r))
      | Char c =>
          if Ascii.eqb c quotechar
          then set_state IN_QUOTED_FIELD <$> parse_add_char c r
          else if Ascii.eqb c delimiter
               then Ok (set_state START_FIELD (parse_save_field r))
          else if is_newline i then Ok (set_state EAT_CRNL (parse_save_field r))
          else set_state IN_FIELD <$> parse_add_char c r
      end
  | EAT_CRNL =>
      match i with
      | EOL => Ok (set_state START_RECORD r)
      | Char c => if is_newline i then Ok r else Raise CsvError
      end
  end.

(** One line of input: its characters, then [EOL]. *)
Fixpoint parse_line (line : string) (r : reader) : result reader :=
  match line with
  | EmptyString => parse_process_char EOL r
  | String c rest => r' ← parse_process_char (Char c) r; parse_line rest r'
  end.

(** Draining [csv.reader(lines)]: the records it yields, in order, and
    the exception that ends the iteration if it does not end normally.
    [r] is the parser after the lines consumed so far of the record
    being read. *)
Fixpoint read_records (r : reader) (lines : list string)
  : list (list string) * option exn :=
  match lines with
  | [] =>
      if negb (String.length (field r) =? 0)%nat
         || bool_decide (state r = IN_QUOTED_FIELD)
      then ([fields (parse_save_field r)], None)
      else ([], None)
  | line :: rest =>
      match parse_line line r with
      | Raise e => ([], Some e)
      | Ok r' =>
          if bool_decide (state r' = START_RECORD)
          then let '(records, e) := read_records parse_reset rest in
               (fields r' :: records, e)
          else read_records r' rest
      end
  end.

Definition reader_of (data : string) : list (list string) * option exn :=
  read_records parse_reset (readlines data).

End Csv.

(** [csv.DictReader(StringIO(data))] with its defaults
    ([restkey=None], [restval=None]). *)

(** A row as [DictReader] yields it: the fields stored under column
    names, a missing one being [None]; and, for a record longer than the
    header, the list of surplus fields stored under the key [None]. *)
Record raw_row : Type := RawRow {
  named : gmap string (option string);
  surplus : option (list string)
}.

Definition dict_row (fieldnames record : list string) : raw_row :=
  let d := foldl (λ d kv, <[kv.1 := Some kv.2]> d) ∅ (zip fieldnames record) in
  let lf := length fieldnames in
  let lr := length record in
  if decide (lf < lr)%nat then RawRow d (Some (drop lf record))
  else if decide (lr < lf)%nat
       then RawRow (foldl (λ d key, <[key := None]> d) d (drop lr fieldnames)) None
  else RawRow d None.

(** Records after the header; empty records ([[]]) are skipped. *)
Fixpoint dict_rows (fieldnames : list string) (records : list (list string))
  : list raw_row :=
  match records with
  | [] => []
  | [] :: records' => dict_rows fieldnames records'
  | record :: records' => dict_row fieldnames record :: dict_rows fieldnames records'
  end.

(** The rows the [DictReader] yields and the exception that ends the
    iteration, if any.  The first record is the header, whatever it is. *)
Definition DictReader (data : string) : list raw_row * option exn :=
  match Csv.reader_of data with
  | ([], e) => ([], e)
  | (fieldnames :: records, e) => (dict_rows fieldnames records, e)
  end.

(** ** The program: [src/tasks.py] *)

(** A cleaned row (tasks.py:33): column name to field, [None] kept. *)
Abbreviation row := (gmap string (option string)).

(** Iteration order of a [set] of strings.  Python fixes none; the
    program is modelled for an arbitrary one. *)
Class SetOrder : Type := {
  set_iter : gset string → list string;
  set_iter_perm : ∀ X, set_iter X ≡ₚ elements X
}.

(** The module state: [_cache], and a ghost trace [parse_log] with one
    entry for each execution of the parsing branch (tasks.py:28-34 and
    103-109), which the program itself does not record. *)
Record state : Type := State {
  _cache : gmap string (list row);
  parse_log : list string
}.

Definition initial_state : state := State ∅ [].

(** The characters the second [strip] of tasks.py:33 removes: the
    single and the double quote. *)
Definition quote_chars : string :=
  String "'"%char (String Csv.quotechar EmptyString).

(** tasks.py:33, one value:
    [v.strip().strip(quote_chars) if v is not None else v]. *)
Definition clean_value (v : option string) : option string :=
  match v with
  | Some s => Some (Py.strip (Py.char_in quote_chars) (Py.strip Py.isspace s))
  | None => None
  end.

(** tasks.py:33, one row.  The surplus of a long record is a list, on
    which [.strip()] raises. *)
Definition clean_row (raw : raw_row) : result row :=
  match surplus raw with
  | Some _ => Raise AttributeError
  | None => Ok (clean_value <$> named raw)
  end.

(** tasks.py:30-34: the loop over the reader. *)
Fixpoint clean_rows (raws : list raw_row) (e : option exn) : result (list row) :=
  match raws with
  | [] => match e with Some e => Raise e | None => Ok [] end
  | raw :: raws' =>
      clean ← clean_row raw;
      rows ← clean_rows raws' e;
      Ok (clean :: rows)
  end.

Definition parse (data : string) : result (list row) :=
  let '(raws, e) := DictReader data in clean_rows raws e.

(** tasks.py:24-36 and 99-111: the rows for [data], from the cache or
    parsed and then cached. *)
Definition get_rows (data : string) (st : state) : result (list row) * state :=
  match _cache st !! data with
  | Some rows => (Ok rows, st)
  | None =>
      let log := (parse_log st ++ [data])%list in
      match parse data with
      | Ok rows => (Ok rows, State (<[data := rows]> (_cache st)) log)
      | Raise e => (Raise e, State (_cache st) log)
      end
  end.

Definition NOT_FOUND : option string := Some "-1".

Section program.
Context `{SetOrder}.

(** tasks.py:53: [all(row[key] == str(search[key]) for key in search_keys)]. *)
Fixpoint all_keys_equal (row : row) (search : gmap string Py.value)
    (keys : list string) : result bool :=
  match keys with
  | [] => Ok true
  | key :: keys' =>
      r ← getitem row key;
      v ← getitem search key;
      s ← Py.str v;
      if bool_decide (r = Some s) then all_keys_equal row search keys'
      else Ok false
  end.

(** tasks.py:51-58. *)
Fixpoint task1_scan (search : gmap string Py.value) (search_keys : list string)
    (rows : list row) : result (option string) :=
  match rows with
  | [] => Ok NOT_FOUND
  | row :: rows' =>
      found ← all_keys_equal row search search_keys;
      if found : bool then getitem row "value"
      else task1_scan search search_keys rows'
  end.

(** tasks.py:39-58. *)
Definition task1_rows (search : gmap string Py.value) (rows : list row)
  : result (option string) :=
  match rows with
  | [] => Ok NOT_FOUND
  | row0 :: _ =>
      let key_fields : gset string := dom row0 ∖ {["value"]} in
      let search_keys : gset string := dom search in
      if bool_decide (search_keys ≠ key_fields) then Raise KeyMismatch
      else task1_scan search (set_iter search_keys) rows
  end.

Definition task1 (search : gmap string Py.value) (data : string) (st : state)
  : result (option string) * state :=
  match get_rows data st with
  | (Ok rows, st') => (task1_rows search rows, st')
  | (Raise e, st') => (Raise e, st')
  end.

(** tasks.py:130-134: the loop over [key_names], [Ok true] when it
    ends with [match] still [True]. *)
Fixpoint keys_match (row : row) (search : gmap string string)
    (key_names : list string) : result bool :=
  match key_names with
  | [] => Ok true
  | key :: keys' =>
      r ← getitem row key;
      s ← getitem search key;
      if bool_decide (r ≠ Some s) then Ok false
      else keys_match row search keys'
  end.

(** tasks.py:138. *)
Definition weight (val : Z) : Z := if val mod 2 =? 0 then 20 else 10.

(** tasks.py:128-141: the loop over [rows] for one search, on the
    running [(total_weighted_value, total_weight)]. *)
Fixpoint scan_rows (key_names : list string) (search : gmap string string)
    (rows : list row) (totals : Z * Z) : result (Z * Z) :=
  match rows with
  | [] => Ok totals
  | row :: rows' =>
      matched ← keys_match row search key_names;
      if matched : bool then
        v ← getitem row "value";
        val ← Py.int v;
        Ok (totals.1 + val * weight val, totals.2 + weight val)
      else scan_rows key_names search rows' totals
  end.

(** tasks.py:127: the loop over [prepared_search_list]. *)
Fixpoint scan_searches (key_names : list string) (rows : list row)
    (searches : list (gmap string string)) (totals : Z * Z) : result (Z * Z) :=
  match searches with
  | [] => Ok totals
  | search :: searches' =>
      totals' ← scan_rows key_names search rows totals;
      scan_searches key_names rows searches' totals'
  end.

(** tasks.py:144-149. *)
Definition average (totals : Z * Z) : result string :=
  if totals.2 =? 0 then Ok "0.0"
  else Py.format_1f <$> Py.true_div totals.1 totals.2.

(** tasks.py:121, one search: [{k: str(v) for k, v in search.items()}].
    The items are visited in the dictionary's order, which the map does
    not keep; the first [str] that raises ends the comprehension, and
    the exception is the same whichever it is. *)
Definition prepare_search (search : gmap string Py.value)
  : result (gmap string string) :=
  list_to_map <$>
    mapM (λ kv : string * Py.value, s ← Py.str kv.2; Ok (kv.1, s))
         (map_to_list search).

(** tasks.py:114-149. *)
Definition task2_rows (search_list : list (gmap string Py.value))
    (rows : list row) : result string :=
  match rows with
  | [] => Ok "0.0"
  | row0 :: _ =>
      let key_names : gset string := dom row0 ∖ {["value"]} in
      prepared_search_list ← mapM prepare_search search_list;
      totals ← scan_searches (set_iter key_names) rows prepared_search_list (0, 0);
      average totals
  end.

Definition task2 (search_list : list (gmap string Py.value)) (data : string)
    (st : state) : result string * state :=
  match get_rows data st with
  | (Ok rows, st') => (task2_rows search_list rows, st')
  | (Raise e, st') => (Raise e, st')
  end.

End program.

(** The order of [elements], to run the program on concrete inputs. *)
Definition elements_order : SetOrder :=
  {| set_iter := elements; set_iter_perm := λ X, reflexivity (elements X) |}.

(** A call of the module's interface, and the state it leaves. *)
Inductive call : Type :=
  | Task1 (search : gmap string Py.value) (data : string)
  | Task2 (search_list : list (gmap string Py.value)) (data : string).

Definition run_call `{SetOrder} (c : call) (st : state) : state :=
  match c with
  | Task1 search data => (task1 search data st).2
  | Task2 search_list data => (task2 search_list data st).2
  end.

(** The state after a history of calls, oldest first, whatever became
    of their results. *)
Definition run `{SetOrder} (calls : list call) (st : state) : state :=
  foldl (λ st c, run_call c st) st calls.

(** * Vocabulary of the statements *)

(** ** Strings *)

Fixpoint string_forall (p : ascii → bool) (s : string) : bool :=
  match s with
  | EmptyString => true
  | String c s' => p c && string_forall p s'
  end.

Definition head_char (s : string) : option ascii :=
  match s with
  | EmptyString => None
  | String c _ => Some c
  end.

Fixpoint last_char (s : string) : option ascii :=
  match s with
  | EmptyString => None
  | String c EmptyString => Some c
  | String _ s' => last_char s'
  end.

(** [t] is [s] without its leading and trailing characters in [p]:
    what was removed is in [p], and [t] neither starts nor ends with a
    character in [p]. *)
Definition stripped_of (p : ascii → bool) (s t : string) : Prop :=
  ∃ pre post,
    s = pre +:+ t +:+ post ∧
    string_forall p pre = true ∧ string_forall p post = true ∧
    (∀ c, head_char t = Some c → p c = false) ∧
    (∀ c, last_char t = Some c → p c = false).

(** A decimal string with exactly one digit after the decimal point:
    an optional minus sign, one or more digits, a point, one digit. *)
Definition one_decimal (s : string) : Prop :=
  ∃ sign whole d,
    s = sign +:+ whole +:+ "." +:+ String d EmptyString ∧
    (sign = EmptyString ∨ sign = "-") ∧
    whole ≠ EmptyString ∧ string_forall Py.isdigit whole = true ∧
    Py.isdigit d = true.

(** ** The cache *)

(** How often the parsing branch has run on [data]. *)
Definition parse_count (data : string) (st : state) : nat :=
  length (filter (λ d, d = data) (parse_log st)).

(** What holds of every state the program reaches: a cached table is
    the parse of its text, that text was parsed exactly once, and a
    text that was parsed and is not cached does not parse. *)
Record state_inv (st : state) : Prop := {
  inv_parsed data rows : _cache st !! data = Some rows → parse data = Ok rows;
  inv_once data : is_Some (_cache st !! data) → parse_count data st = 1%nat;
  inv_failed data :
    _cache st !! data = None → data ∈ parse_log st → ∃ e, parse data = Raise e
}.

(** ** Matching and aggregation, as the specification words them *)

(** The key columns of a table: its schema, which is the column set of
    its first row, without the value column. *)
Definition key_columns (rows : list row) : gset string :=
  match rows with
  | [] => ∅
  | row0 :: _ => dom row0 ∖ {["value"]}
  end.

(** The integer [10 ^ 4300], of 4301 digits, as a numeral. *)
Definition long_int : Z := Eval vm_compute in 10 ^ 4300.

(** A value that [str] renders: any scalar but an [int] of more than
    4300 decimal digits. *)
Definition renderable (v : Py.value) : Prop :=
  match v with
  | Py.VInt n => Z.abs n < long_int
  | _ => True
  end.

#[global] Instance renderable_dec v : Decision (renderable v).
Proof. destruct v; simpl; apply _. Defined.

(** A query all of whose values [str] renders. *)
Definition renders (search : gmap string Py.value) : Prop :=
  map_Forall (λ _ v, renderable v) search.

#[global] Instance renders_dec search : Decision (renders search).
Proof. unfold renders. apply _. Defined.

(** The rendering of a renderable value; the empty string stands for
    the missing rendering of any other. *)
Definition rendering (v : Py.value) : string :=
  match Py.str v with
  | Ok s => s
  | Raise _ => EmptyString
  end.

(** The row's string in column [k] equals the rendering of the query's
    value for [k]: the row has a string there, the query a value, and
    [str] of that value is this string. *)
Definition column_matches (search : gmap string Py.value) (r : row) (k : string)
  : bool :=
  match search !! k, r !! k with
  | Some v, Some (Some s) => bool_decide (Py.str v = Ok s)
  | _, _ => false
  end.

(** A row matches a query on the columns [K] when every column of [K]
    matches. *)
Definition row_matches (K : gset string) (search : gmap string Py.value)
    (r : row) : Prop :=
  set_Forall (λ k, column_matches search r k = true) K.

#[global] Instance row_matches_dec K search r : Decision (row_matches K search r).
Proof. unfold row_matches. apply _. Defined.

(** The first row, in table order, that matches the query. *)
Definition first_match (K : gset string) (search : gmap string Py.value)
    (rows : list row) : option row :=
  List.find (λ r, bool_decide (row_matches K search r)) rows.

(** Exact-Match Lookup: the value field of the first matching row, or
    the sentinel. *)
Definition lookup_spec (search : gmap string Py.value) (rows : list row)
  : result (option string) :=
  match first_match (key_columns rows) search rows with
  | Some r => getitem r "value"
  | None => Ok NOT_FOUND
  end.

(** Weighted Aggregator: weight 20 for an even value, 10 for an odd one. *)
Definition weight_spec (n : Z) : Z := if Z.even n then 20 else 10.

Definition Zsum (l : list Z) : Z := foldr Z.add 0 l.

(** The characters an integer literal is made of: digits, a sign, an
    underscore, and the white space around it. *)
Definition int_char (c : ascii) : bool :=
  Py.char_in "0123456789+-_" c || Py.int_isspace c.

(** The value field of a matched row, parsed as an integer. *)
Definition row_value (r : row) : result Z := v ← getitem r "value"; Py.int v.

(** The weighted average of the matched values, as a string. *)
Definition weighted_average (vals : list Z) : result string :=
  let sum := Zsum ((λ v, v * weight_spec v) <$> vals) in
  let weight_total := Zsum (weight_spec <$> vals) in
  if weight_total =? 0 then Ok "0.0"
  else Py.format_1f <$> Py.true_div sum weight_total.

(** Per query its first matching row only, queries without one
    dropped; the values of these rows parsed in query order; their
    weighted average. *)
Definition aggregate_spec (search_list : list (gmap string Py.value))
    (rows : list row) : result string :=
  vals ← mapM row_value
         (omap (λ search, first_match (key_columns rows) search rows) search_list);
  weighted_average vals.

(** ** The documented scenarios and other sample tables *)

Definition nl : string := String Csv.LF EmptyString.

(** The table of the docstring of [task1] and of tasks.py:62. *)
Definition currency_table : string :=
  "side,currency,value" +:+ nl +:+ "IN,PLN,1" +:+ nl +:+ "IN,EUR,2" +:+ nl
  +:+ "OUT,ANY,3".

Definition currency_row (side currency value : string) : row :=
  {[ "side" := Some side; "currency" := Some currency; "value" := Some value ]}.

Definition currency_rows : list row :=
  [currency_row "IN" "PLN" "1"; currency_row "IN" "EUR" "2";
   currency_row "OUT" "ANY" "3"].

Definition currency_query (side currency : string) : gmap string Py.value :=
  {[ "side" := Py.VStr side; "currency" := Py.VStr currency ]}.

(** The table and the queries of the docstring of [task2]. *)
Definition ab_table : string :=
  "a,b,value" +:+ nl +:+ "1,2,10" +:+ nl +:+ "3,4,15" +:+ nl.

Definition ab_row (a b value : string) : row :=
  {[ "a" := Some a; "b" := Some b; "value" := Some value ]}.

Definition ab_rows : list row := [ab_row "1" "2" "10"; ab_row "3" "4" "15"].

Definition ab_query (a b : Z) : gmap string Py.value :=
  {[ "a" := Py.VInt a; "b" := Py.VInt b ]}.

Definition ab_queries : list (gmap string Py.value) := [ab_query 1 2; ab_query 3 4].

(** A record with one field more than the header, and one with one
    field less. *)
Definition long_table : string := "a,value" +:+ nl +:+ "1,10,x" +:+ nl.
Definition short_table : string := "a,value" +:+ nl +:+ "1" +:+ nl.

(** Fields padded with white space and wrapped in quotes. *)
Definition padded_table : string :=
  "k,value" +:+ nl +:+ " 'x' ,  ''7'  " +:+ nl +:+ "y" +:+ nl.

(** The state after one successful parse of [data] from the initial
    state. *)
Definition cached (data : string) (rows : list row) : state :=
  State {[ data := rows ]} [data].

(** A table with one key column, and a table without rows. *)
Definition one_key_table : string := "a,value" +:+ nl +:+ "1,10" +:+ nl.

Definition header_only_table : string := "a,b,value" +:+ nl.

(** A table whose value field is no integer literal. *)
Definition word_value_table : string := "a,value" +:+ nl +:+ "1,ten" +:+ nl.

(** ** Histories *)

(** The text a call is made on. *)
Definition call_data (c : call) : string :=
  match c with
  | Task1 _ data => data
  | Task2 _ data => data
  end.

(** The order of [elements] reversed: a second iteration order. *)
Definition reversed_order : SetOrder :=
  {| set_iter := λ X, reverse (elements X);
     set_iter_perm := λ X, reverse_Permutation (elements X) |}.

(** ** Plain tables *)

(** A character the excel dialect gives no meaning to: not the comma,
    the double quote, LF or CR. *)
Definition plain_char (c : ascii) : bool :=
  negb (Ascii.eqb c Csv.delimiter || Ascii.eqb c Csv.quotechar
        || Ascii.eqb c Csv.LF || Ascii.eqb c Csv.CR).

(** A field of plain characters, within the reader's field size limit. *)
Definition plain_field (f : string) : Prop :=
  string_forall plain_char f = true ∧ Z.of_nat (String.length f) ≤ Csv.field_limit.

(** A record a line can stand for: plain fields, at least one, and not
    the single empty field, whose line would be blank. *)
Definition plain_record (record : list string) : Prop :=
  Forall plain_field record ∧ record ≠ [] ∧ record ≠ [EmptyString].

(** The line of a record: its fields separated by commas, then the
    terminator. *)
Fixpoint record_line (fields : list string) (terminator : string) : string :=
  match fields with
  | [] => terminator
  | [f] => f +:+ terminator
  | f :: fields' => f +:+ String Csv.delimiter (record_line fields' terminator)
  end.

(** The text of a table: one line for each record, each ended by LF,
    the last one only if [final_newline]. *)
Fixpoint write_records (final_newline : bool) (records : list (list string))
  : string :=
  match records with
  | [] => EmptyString
  | [record] => record_line record (if final_newline then nl else EmptyString)
  | record :: records' =>
      record_line record nl +:+ write_records final_newline records'
  end.

(** The characters of a string fed to the reader's parser, without the
    end of line. *)
Fixpoint feed (s : string) (r : Csv.reader) : result Csv.reader :=
  match s with
  | EmptyString => Ok r
  | String c s' => r' ← Csv.parse_process_char (Csv.Char c) r; feed s' r'
  end.

(** A line as [StringIO] yields it before the last: no LF but the one
    that ends it. *)
Fixpoint ends_line (s : string) : bool :=
  match s with
  | EmptyString => false
  | String c EmptyString => Ascii.eqb c Csv.LF
  | String c s' => negb (Ascii.eqb c Csv.LF) && ends_line s'
  end.

(** A string without LF. *)
Fixpoint no_lf (s : string) : bool :=
  match s with
  | EmptyString => true
  | String c s' => negb (Ascii.eqb c Csv.LF) && no_lf s'
  end.

(** * Properties of the library functions *)

Section strings.

Context (p : ascii → bool).

Lemma string_forall_app s t :
  string_forall p (s +:+ t) = string_forall p s && string_forall p t.
Proof. induction s as [|c s IH]; simpl; [done|]. by rewrite IH, andb_assoc. Qed.

Lemma last_char_is_Some c s : is_Some (last_char (String c s)).
Proof. revert c. induction s as [|d s IH]; intros c; [by eexists|]. apply (IH d). Qed.

Lemma last_char_cons c s :
  last_char (String c s) = match last_char s with Some d => Some d | None => Some c end.
Proof.
  destruct s as [|d s]; [done|].
  destruct (last_char_is_Some d s) as [e He]. rewrite He. by rewrite <-He.
Qed.

Lemma last_char_None s : last_char s = None → s = EmptyString.
Proof.
  induction s as [|c s IH]; [done|]. rewrite last_char_cons.
  by destruct (last_char s).
Qed.

Lemma lstrip_spec s :
  ∃ pre, s = pre +:+ Py.lstrip p s ∧ string_forall p pre = true ∧
         ∀ c, head_char (Py.lstrip p s) = Some c → p c = false.
Proof.
  induction s as [|c s (pre & Hs & Hpre & Hhead)]; simpl.
  - by exists EmptyString.
  - destruct (p c) eqn:Hc.
    + exists (String c pre). split_and!; [|simpl; by rewrite Hc|done].
      change (String c s = String c (pre +:+ Py.lstrip p s)). by f_equal.
    + exists EmptyString. simpl. split_and!; [done..|]. by intros ? [= <-].
Qed.

Lemma rstrip_spec s :
  ∃ post, s = Py.rstrip p s +:+ post ∧ string_forall p post = true ∧
          ∀ c, last_char (Py.rstrip p s) = Some c → p c = false.
Proof.
  induction s as [|c s (post & Hs & Hpost & Hlast)]; simpl.
  - by exists EmptyString.
  - destruct (Py.rstrip p s) as [|d r] eqn:Hr.
    + destruct (p c) eqn:Hc.
      * exists (String c post). split_and!; [|simpl; by rewrite Hc|done].
        change (String c s = String c (EmptyString +:+ post)). by f_equal.
      * exists post. split_and!; [|done|by intros ? [= <-]].
        change (String c s = String c (EmptyString +:+ post)). by f_equal.
    + exists post. split_and!; [|done|].
      { change (String c s = String c (String d r +:+ post)). by f_equal. }
      intros c'. rewrite last_char_cons. destruct (last_char (String d r)) eqn:E.
      * intros [= <-]. by apply Hlast.
      * by apply last_char_None in E.
Qed.

Lemma rstrip_head_inv s c :
  head_char (Py.rstrip p s) = Some c → head_char s = Some c.
Proof.
  destruct s as [|d s]; [done|]. simpl.
  destruct (Py.rstrip p s); [by destruct (p d)|done].
Qed.

(** [strip] removes exactly the leading and trailing characters in [p]. *)
Lemma strip_stripped_of s : stripped_of p s (Py.strip p s).
Proof.
  unfold Py.strip.
  destruct (lstrip_spec s) as (pre & Hs & Hpre & Hhead).
  destruct (rstrip_spec (Py.lstrip p s)) as (post & Hl & Hpost & Hlast).
  exists pre, post. split_and!; [|done..| |done].
  - by rewrite <-Hl.
  - intros c Hc. by apply Hhead, rstrip_head_inv.
Qed.

Lemma lstrip_app_forall pre s :
  string_forall p pre = true → Py.lstrip p (pre +:+ s) = Py.lstrip p s.
Proof.
  induction pre as [|c pre IH]; simpl; [done|].
  intros [Hc ?]%andb_prop. rewrite Hc. auto.
Qed.

Lemma lstrip_forall s :
  string_forall p s = true → Py.lstrip p s = EmptyString.
Proof.
  induction s as [|c s IH]; simpl; [done|].
  intros [Hc ?]%andb_prop. rewrite Hc. auto.
Qed.

Lemma lstrip_head s :
  (∀ c, head_char s = Some c → p c = false) → Py.lstrip p s = s.
Proof. destruct s as [|c s]; simpl; [done|]. intros Hc. by rewrite Hc. Qed.

Lemma rstrip_forall post :
  string_forall p post = true → Py.rstrip p post = EmptyString.
Proof.
  induction post as [|c post IH]; simpl; [done|].
  intros [Hc ?]%andb_prop. rewrite IH by done. by rewrite Hc.
Qed.

Lemma rstrip_app_forall s post :
  string_forall p post = true →
  (∀ c, last_char s = Some c → p c = false) →
  Py.rstrip p (s +:+ post) = s.
Proof.
  intros Hpost. induction s as [|c s IH].
  - intros _. by apply rstrip_forall.
  - rewrite last_char_cons. intros Hlast.
    change (match Py.rstrip p (s +:+ post) with
            | EmptyString => if p c then EmptyString else String c EmptyString
            | r => String c r
            end = String c s).
    destruct (last_char s) as [d|] eqn:Hd.
    + rewrite IH by (intros ? [= <-]; by apply Hlast). by destruct s.
    + apply last_char_None in Hd as ->. simpl.
      rewrite rstrip_forall by done. by rewrite Hlast.
Qed.

(** ... and it is the only string that is [s] so stripped. *)
Lemma stripped_of_strip s t : stripped_of p s t → t = Py.strip p s.
Proof.
  intros (pre & post & -> & Hpre & Hpost & Hhead & Hlast). unfold Py.strip.
  rewrite lstrip_app_forall by done.
  destruct t as [|c t].
  - change (EmptyString +:+ post) with post. by rewrite lstrip_forall.
  - rewrite lstrip_head by (simpl; intros ? [= <-]; by apply Hhead).
    symmetry. by apply rstrip_app_forall.
Qed.

End strings.

Section floats.

Lemma round_half_even_nonneg a b : 0 ≤ a → 0 < b → 0 ≤ Py.round_half_even a b.
Proof.
  intros Ha Hb. unfold Py.round_half_even.
  assert (0 ≤ a / b) by (apply Z.div_pos; lia).
  destruct (2 * (a `mod` b) ?= b); [destruct (Z.even _)|..]; lia.
Qed.

Lemma true_div_mant_nonneg a b x : Py.true_div a b = Ok x → 0 ≤ Py.f_mant x.
Proof.
  unfold Py.true_div. destruct (b =? 0) eqn:Hb; [done|].
  destruct (Z.abs a =? 0) eqn:Ha; [by intros [= <-]|].
  apply Z.eqb_neq in Hb, Ha.
  destruct (_ && _); [done|]. intros [= <-]. simpl.
  destruct (0 <=? _) eqn:He.
  - apply Z.leb_le in He. apply round_half_even_nonneg; [lia|].
    apply Z.mul_pos_pos; [lia|]. by apply Z.pow_pos_nonneg.
  - apply round_half_even_nonneg; [|lia].
    apply Z.mul_nonneg_nonneg; [lia|]. apply Z.pow_nonneg. lia.
Qed.

Lemma tenths_nonneg x : 0 ≤ Py.f_mant x → 0 ≤ Py.tenths x.
Proof.
  intros Hm. unfold Py.tenths. destruct (0 <=? Py.f_exp x) eqn:He.
  - apply Z.mul_nonneg_nonneg; [lia|]. apply Z.pow_nonneg. lia.
  - apply Z.leb_gt in He. apply round_half_even_nonneg; [lia|].
    apply Z.pow_pos_nonneg; lia.
Qed.

Lemma pretty_N_char_isdigit x : Py.isdigit (pretty_N_char x) = true.
Proof. unfold pretty_N_char. by repeat case_match. Qed.

Lemma pretty_N_go_digits x s :
  string_forall Py.isdigit s = true →
  string_forall Py.isdigit (pretty_N_go x s) = true.
Proof.
  revert s. induction (N.lt_wf_0 x) as [x _ IH]; intros s Hs.
  assert (x = 0 ∨ 0 < x)%N as [->|?] by lia; [by rewrite pretty_N_go_0|].
  rewrite pretty_N_go_step by done. apply IH; [by apply N.div_lt|].
  simpl. by rewrite pretty_N_char_isdigit.
Qed.

Lemma pretty_N_go_nonempty x s :
  s ≠ EmptyString → pretty_N_go x s ≠ EmptyString.
Proof.
  revert s. induction (N.lt_wf_0 x) as [x _ IH]; intros s Hs.
  assert (x = 0 ∨ 0 < x)%N as [->|?] by lia; [by rewrite pretty_N_go_0|].
  rewrite pretty_N_go_step by done. apply IH; [by apply N.div_lt|done].
Qed.

(** The decimal rendering of a natural number: digits, at least one. *)
Lemma pretty_nonneg_digits n :
  0 ≤ n → string_forall Py.isdigit (pretty n) = true ∧ pretty n ≠ EmptyString.
Proof.
  intros Hn. destruct n as [|q|q]; [done| |lia].
  change (pretty (Z.pos q)) with (pretty_N_go (N.pos q) EmptyString). split.
  - by apply pretty_N_go_digits.
  - rewrite pretty_N_go_step by lia. by apply pretty_N_go_nonempty.
Qed.

Lemma pretty_one_digit n :
  0 ≤ n < 10 → ∃ d, pretty n = String d EmptyString ∧ Py.isdigit d = true.
Proof.
  intros Hn.
  assert (n = 0 ∨ n = 1 ∨ n = 2 ∨ n = 3 ∨ n = 4 ∨ n = 5 ∨ n = 6 ∨ n = 7
          ∨ n = 8 ∨ n = 9) as Hcases by lia.
  repeat destruct Hcases as [->|Hcases]; [by eexists..|subst; by eexists].
Qed.

Lemma format_1f_one_decimal x : 0 ≤ Py.f_mant x → one_decimal (Py.format_1f x).
Proof.
  intros Hm. pose proof (tenths_nonneg x Hm) as Ht.
  destruct (pretty_nonneg_digits (Py.tenths x / 10)) as [Hdigits Hne].
  { apply Z.div_pos; lia. }
  destruct (pretty_one_digit (Py.tenths x `mod` 10)) as (d & Hd & Hdigit).
  { apply Z.mod_pos_bound. lia. }
  exists (if Py.f_neg x then "-" else EmptyString), (pretty (Py.tenths x / 10)), d.
  unfold Py.format_1f. rewrite Hd. split_and!; [done| |done..].
  destruct (Py.f_neg x); auto.
Qed.

End floats.

(** * Properties of the parser *)

Section parsing.

Lemma dom_foldl_zip (l : list (string * string)) (d : gmap string (option string)) :
  dom (foldl (λ d kv, <[kv.1 := Some kv.2]> d) d l) = dom d ∪ list_to_set l.*1.
Proof.
  revert d. induction l as [|[k v] l IH]; intros d; simpl; [set_solver|].
  rewrite IH, dom_insert_L. set_solver.
Qed.

Lemma dom_foldl_restval (l : list string) (d : gmap string (option string)) :
  dom (foldl (λ d key, <[key := None]> d) d l) = dom d ∪ list_to_set l.
Proof.
  revert d. induction l as [|k l IH]; intros d; simpl; [set_solver|].
  rewrite IH, dom_insert_L. set_solver.
Qed.

Lemma fst_zip_take {A B} (l : list A) (k : list B) :
  (zip l k).*1 = take (length k) l.
Proof.
  revert k. induction l as [|x l IH]; intros [|y k]; simpl; [done..|].
  by rewrite IH.
Qed.

Lemma dict_row_surplus fieldnames record :
  is_Some (surplus (dict_row fieldnames record)) ↔
  (length fieldnames < length record)%nat.
Proof.
  unfold dict_row. repeat case_decide; simpl; split;
    eauto; try lia; by intros [? [=]].
Qed.

(** A row the reader yields without surplus has exactly the header's
    columns, whatever the length of its record. *)
Lemma dict_row_dom fieldnames record :
  surplus (dict_row fieldnames record) = None →
  dom (named (dict_row fieldnames record)) = list_to_set fieldnames.
Proof.
  unfold dict_row. repeat case_decide; simpl; [done|..]; intros _.
  - rewrite dom_foldl_restval, dom_foldl_zip, fst_zip_take, dom_empty_L.
    rewrite <-(take_drop (length record) fieldnames) at 3.
    rewrite list_to_set_app_L. set_solver.
  - rewrite dom_foldl_zip, fst_zip_take, dom_empty_L.
    rewrite take_ge by lia. set_solver.
Qed.

Lemma clean_row_Ok raw row :
  clean_row raw = Ok row ↔ surplus raw = None ∧ row = clean_value <$> named raw.
Proof.
  unfold clean_row. destruct (surplus raw); split; try done.
  - by intros [[=] _].
  - by intros [= <-].
  - by intros [_ ->].
Qed.

Lemma clean_row_Raise raw e : clean_row raw = Raise e → e = AttributeError.
Proof. unfold clean_row. destruct (surplus raw); by intros [= <-]. Qed.

Lemma clean_rows_Ok raws e rows :
  clean_rows raws e = Ok rows ↔
  e = None ∧ Forall2 (λ raw row, clean_row raw = Ok row) raws rows.
Proof.
  revert rows. induction raws as [|raw raws IH]; intros rows; simpl.
  - destruct e; split; try done.
    + by intros [[=] _].
    + intros [= <-]. by split.
    + by intros [_ ->%Forall2_nil_inv_l].
  - destruct (clean_row raw) as [clean|] eqn:Hraw; simpl.
    + split.
      * intros Hrows. destruct (clean_rows raws e) as [rows'|]; simplify_eq/=.
        destruct (proj1 (IH rows') eq_refl) as [-> Hall].
        split; [done|]. by constructor.
      * intros [-> (clean' & rows'' & Hc & Hrows & ->)%Forall2_cons_inv_l].
        rewrite (proj2 (IH rows'') (conj eq_refl Hrows)). simpl. congruence.
    + split; [done|].
      intros [_ (clean' & rows'' & Hc & _)%Forall2_cons_inv_l]. congruence.
Qed.

(** The loop raises on the first long record, before anything the
    reader raises later. *)
Lemma clean_rows_surplus raws e :
  Exists (λ raw, is_Some (surplus raw)) raws →
  clean_rows raws e = Raise AttributeError.
Proof.
  induction 1 as [raw raws [l Hl]|raw raws _ IH]; simpl.
  - unfold clean_row. by rewrite Hl.
  - destruct (clean_row raw) eqn:Hraw; simpl.
    + by rewrite IH.
    + by apply clean_row_Raise in Hraw as ->.
Qed.

Lemma dict_rows_surplus fieldnames records :
  Exists (λ record, (length fieldnames < length record)%nat) records →
  Exists (λ raw, is_Some (surplus raw)) (dict_rows fieldnames records).
Proof.
  induction 1 as [record records Hlong|record records _ IH]; simpl.
  - destruct record; [simpl in Hlong; lia|].
    apply Exists_cons_hd. by apply dict_row_surplus.
  - destruct record; [done|]. by apply Exists_cons_tl.
Qed.

Lemma dict_rows_no_surplus fieldnames records :
  Forall (λ record, (length record ≤ length fieldnames)%nat) records →
  Forall (λ raw, surplus raw = None) (dict_rows fieldnames records).
Proof.
  induction 1 as [|record records Hshort _ IH]; simpl; [done|].
  destruct record; [done|]. constructor; [|done].
  destruct (surplus _) eqn:Hs; [|done].
  assert (is_Some (surplus (dict_row fieldnames (s :: record)))) as Hsome by eauto.
  apply dict_row_surplus in Hsome. lia.
Qed.

Lemma dict_rows_dom fieldnames records :
  Forall (λ raw, surplus raw = None → dom (named raw) = list_to_set fieldnames)
         (dict_rows fieldnames records).
Proof.
  induction records as [|record records IH]; simpl; [done|].
  destruct record; [done|]. constructor; [|done]. apply dict_row_dom.
Qed.

(** What [parse] returns when it returns: the rows of the
    [DictReader], each cleaned value by value. *)
Lemma parse_Ok data rows :
  parse data = Ok rows ↔
  ∃ raws, DictReader data = (raws, None) ∧
          Forall2 (λ raw row, clean_row raw = Ok row) raws rows.
Proof.
  unfold parse. destruct (DictReader data) as [raws e]. rewrite clean_rows_Ok.
  split.
  - intros [-> ?]. eauto.
  - by intros (? & [= <- <-] & ?).
Qed.

(** All rows of a parsed table have the same columns. *)
Lemma parse_same_columns data rows :
  parse data = Ok rows → ∃ K : gset string, Forall (λ row, dom row = K) rows.
Proof.
  intros (raws & Hreader & Hclean)%parse_Ok. unfold DictReader in Hreader.
  destruct (Csv.reader_of data) as [[|fieldnames records] e].
  { simplify_eq. apply Forall2_nil_inv_l in Hclean as ->. by exists ∅. }
  simplify_eq. exists (list_to_set fieldnames).
  pose proof (dict_rows_dom fieldnames records) as Hdom.
  induction Hclean as [|raw row raws rows [Hs ->]%clean_row_Ok _ IH]; [done|].
  apply Forall_cons in Hdom as [Hraw Hdom]. constructor; [|by apply IH].
  rewrite dom_fmap_L. by apply Hraw.
Qed.

End parsing.

(** * The cache *)

Section cache.
Context `{SetOrder}.

Lemma get_rows_hit data st rows :
  _cache st !! data = Some rows → get_rows data st = (Ok rows, st).
Proof. intros Hc. unfold get_rows. by rewrite Hc. Qed.

Lemma get_rows_miss data st :
  _cache st !! data = None →
  get_rows data st =
    match parse data with
    | Ok rows => (Ok rows, State (<[data := rows]> (_cache st)) (parse_log st ++ [data]))
    | Raise e => (Raise e, State (_cache st) (parse_log st ++ [data]))
    end.
Proof. intros Hc. unfold get_rows. by rewrite Hc. Qed.

Lemma get_rows_Ok data st rows st' :
  get_rows data st = (Ok rows, st') → _cache st' !! data = Some rows.
Proof.
  unfold get_rows. destruct (_cache st !! data) eqn:Hc.
  - by intros [= <- <-].
  - destruct (parse data); intros [= <- <-]. simpl. by rewrite lookup_insert_eq.
Qed.

Lemma get_rows_Raise data st e st' :
  get_rows data st = (Raise e, st') →
  _cache st !! data = None ∧ parse data = Raise e ∧ _cache st' = _cache st.
Proof.
  unfold get_rows. destruct (_cache st !! data) eqn:Hc; [done|].
  destruct (parse data); by intros [= <- <-].
Qed.

(** No entry is evicted, replaced or changed. *)
Lemma get_rows_preserves data st d rows :
  _cache st !! d = Some rows → _cache (get_rows data st).2 !! d = Some rows.
Proof.
  intros Hd. unfold get_rows. destruct (_cache st !! data) eqn:Hc; [done|].
  destruct (parse data); simpl; [|done].
  rewrite lookup_insert_ne; [done|]. by intros ->; simplify_eq.
Qed.

Lemma parse_count_snoc data d st c :
  parse_count data (State c (parse_log st ++ [d])) =
  (parse_count data st + if decide (d = data) then 1 else 0)%nat.
Proof.
  unfold parse_count. simpl. rewrite filter_app, length_app. f_equal.
  rewrite filter_cons, filter_nil. by case_decide.
Qed.

Lemma parse_count_0 data st : data ∉ parse_log st → parse_count data st = 0%nat.
Proof.
  intros Hnot. unfold parse_count.
  induction (parse_log st) as [|d l IH]; [done|].
  rewrite filter_cons. apply not_elem_of_cons in Hnot as [? ?].
  case_decide; [congruence|auto].
Qed.

Lemma initial_state_inv : state_inv initial_state.
Proof. split; simpl; intros data; [done| |by intros _ ?%elem_of_nil]. by intros [? ?]. Qed.

Lemma get_rows_inv data st : state_inv st → state_inv (get_rows data st).2.
Proof.
  intros [Hparsed Honce Hfailed]. unfold get_rows.
  destruct (_cache st !! data) as [rows|] eqn:Hc; [done|].
  destruct (parse data) as [rows|e] eqn:Hp; split; simpl.
  - intros d rows'. destruct (decide (d = data)) as [->|Hne].
    + rewrite lookup_insert_eq. congruence.
    + rewrite lookup_insert_ne by done. apply Hparsed.
  - intros d. rewrite (parse_count_snoc d data st). destruct (decide (d = data)) as [->|Hne].
    + intros _. rewrite decide_True by done. rewrite parse_count_0; [done|].
      intros Hin. destruct (Hfailed data Hc Hin). congruence.
    + rewrite lookup_insert_ne, decide_False by done. intros ?%Honce. lia.
  - intros d. destruct (decide (d = data)) as [->|Hne].
    + by rewrite lookup_insert_eq.
    + rewrite lookup_insert_ne by done.
      intros Hd [?|?%list_elem_of_singleton]%elem_of_app; [eauto|done].
  - done.
  - intros d Hd. rewrite (parse_count_snoc d data st). rewrite decide_False.
    + rewrite Honce by done. lia.
    + intros <-. destruct Hd. congruence.
  - intros d Hd [?|Hin%list_elem_of_singleton]%elem_of_app; [eauto|].
    subst d. eauto.
Qed.

Lemma task1_state search data st : (task1 search data st).2 = (get_rows data st).2.
Proof. unfold task1. by destruct (get_rows data st) as [[?|?] ?]. Qed.

Lemma task2_state search_list data st :
  (task2 search_list data st).2 = (get_rows data st).2.
Proof. unfold task2. by destruct (get_rows data st) as [[?|?] ?]. Qed.

Lemma run_call_get_rows c st :
  ∃ data, run_call c st = (get_rows data st).2.
Proof. destruct c as [? data|? data]; exists data; [apply task1_state|apply task2_state]. Qed.

Lemma run_call_data c st : run_call c st = (get_rows (call_data c) st).2.
Proof. destruct c; [apply task1_state|apply task2_state]. Qed.

Lemma run_snoc calls c st : run (calls ++ [c]) st = run_call c (run calls st).
Proof. unfold run. by rewrite foldl_app. Qed.

Lemma run_inv calls : state_inv (run calls initial_state).
Proof.
  induction calls as [|c calls IH] using rev_ind; [apply initial_state_inv|].
  rewrite run_snoc. destruct (run_call_get_rows c (run calls initial_state)) as [data ->].
  by apply get_rows_inv.
Qed.

Lemma run_preserves calls st d rows :
  _cache st !! d = Some rows → _cache (run calls st) !! d = Some rows.
Proof.
  induction calls as [|c calls IH] using rev_ind; [done|]. intros Hd.
  rewrite run_snoc. destruct (run_call_get_rows c (run calls st)) as [data ->].
  by apply get_rows_preserves, IH.
Qed.

Lemma run_hit_log calls st d rows :
  _cache st !! d = Some rows → parse_count d (run calls st) = parse_count d st.
Proof.
  intros Hd. induction calls as [|c calls IH] using rev_ind; [done|].
  rewrite run_snoc, <-IH.
  destruct (run_call_get_rows c (run calls st)) as [data ->].
  pose proof (run_preserves calls st d rows Hd) as Hd'.
  unfold get_rows. destruct (_cache (run calls st) !! data) eqn:Hc; [done|].
  assert (data ≠ d) by congruence.
  destruct (parse data); simpl; rewrite (parse_count_snoc d data (run calls st));
    rewrite decide_False by done; lia.
Qed.

End cache.

(** * Rendering of query values *)

Section rendering.

Lemma long_int_eq : long_int = 10 ^ 4300.
Proof. vm_compute. reflexivity. Qed.

Lemma str_limit_eq : Py.str_limit = long_int.
Proof. reflexivity. Qed.

Lemma str_int_small n : Z.abs n < long_int → Py.str (Py.VInt n) = Ok (pretty n).
Proof.
  intros Hn. unfold Py.str. rewrite str_limit_eq.
  destruct (Z.leb_spec long_int (Z.abs n)) as [Hle|Hlt]; [|reflexivity].
  destruct (Z.lt_irrefl _ (Z.le_lt_trans _ _ _ Hle Hn)).
Qed.

Lemma str_int_large n : long_int ≤ Z.abs n → Py.str (Py.VInt n) = Raise ValueError.
Proof.
  intros Hn. unfold Py.str. rewrite str_limit_eq.
  destruct (Z.leb_spec long_int (Z.abs n)) as [Hle|Hlt]; [reflexivity|].
  destruct (Z.lt_irrefl _ (Z.le_lt_trans _ _ _ Hn Hlt)).
Qed.

Lemma str_spec v :
  Py.str v = if decide (renderable v) then Ok (rendering v) else Raise ValueError.
Proof.
  destruct v as [n|s|[]|]; try done. case_decide as Hn.
  - unfold rendering. by rewrite (str_int_small n Hn).
  - apply str_int_large. apply Z.nlt_ge, Hn.
Qed.

Lemma str_renderable v : renderable v → Py.str v = Ok (rendering v).
Proof. intros Hv. by rewrite str_spec, decide_True. Qed.

Lemma str_Ok v s : Py.str v = Ok s → renderable v ∧ s = rendering v.
Proof. rewrite str_spec. case_decide; [|done]. by intros [= <-]. Qed.

Lemma str_Raise v e : Py.str v = Raise e → e = ValueError ∧ ¬ renderable v.
Proof. rewrite str_spec. case_decide; [done|]. by intros [= <-]. Qed.

Lemma prepare_items_Ok (l : list (string * Py.value)) :
  Forall (λ kv, renderable kv.2) l →
  mapM (λ kv : string * Py.value, s ← Py.str kv.2; Ok (kv.1, s)) l
  = Ok (prod_map id rendering <$> l).
Proof.
  induction 1 as [|[k v] l Hv _ IH]; [done|].
  cbn [mapM]. rewrite IH. simpl in *. by rewrite (str_renderable v).
Qed.

Lemma prepare_items_Raise (l : list (string * Py.value)) e :
  mapM (λ kv : string * Py.value, s ← Py.str kv.2; Ok (kv.1, s)) l = Raise e →
  e = ValueError ∧ Exists (λ kv, ¬ renderable kv.2) l.
Proof.
  induction l as [|[k v] l IH]; [done|]. cbn [mapM]. simpl.
  destruct (Py.str v) as [s|e'] eqn:Hs; simpl.
  - destruct (mapM _ l) as [l'|e']; simpl; [done|]. intros [= <-].
    destruct IH as [-> ?]; [done|]. split; [done|]. by apply Exists_cons_tl.
  - intros [= <-]. apply str_Raise in Hs as [-> ?]. split; [done|].
    by apply Exists_cons_hd.
Qed.

(** tasks.py:121 on one query: the rendered query, or a [ValueError]
    when some value has no rendering. *)
Lemma prepare_search_Ok search :
  renders search → prepare_search search = Ok (rendering <$> search).
Proof.
  intros Hs. unfold prepare_search. rewrite prepare_items_Ok.
  - simpl. f_equal. rewrite list_to_map_fmap. by rewrite list_to_map_to_list.
  - apply Forall_forall. intros [k v] Hkv%elem_of_map_to_list. by apply (Hs k v).
Qed.

Lemma prepare_search_Raise search e :
  prepare_search search = Raise e → e = ValueError ∧ ¬ renders search.
Proof.
  unfold prepare_search.
  destruct (mapM _ (map_to_list search)) as [l|e'] eqn:Hl; simpl; [done|].
  intros [= <-]. apply prepare_items_Raise in Hl as [-> Hex]. split; [done|].
  intros Hs. apply Exists_exists in Hex as ([k v] & Hkv%elem_of_map_to_list & Hv).
  by apply Hv, (Hs k v).
Qed.

Lemma prepare_search_spec search :
  prepare_search search
  = if decide (renders search) then Ok (rendering <$> search) else Raise ValueError.
Proof.
  case_decide as Hs; [by apply prepare_search_Ok|].
  destruct (prepare_search search) as [m|e] eqn:Hp.
  - destruct Hs. intros k v Hkv. destruct (decide (renderable v)) as [|Hv]; [done|].
    unfold prepare_search in Hp.
    destruct (mapM _ (map_to_list search)) as [l|] eqn:Hl; [|done].
    exfalso. clear Hp. apply elem_of_map_to_list in Hkv.
    revert l Hl. induction (map_to_list search) as [|[k' v'] items IH]; intros l Hl.
    { by apply elem_of_nil in Hkv. }
    cbn [mapM] in Hl. simpl in Hl.
    destruct (Py.str v') as [s|] eqn:Hs'; simpl in Hl; [|done].
    destruct (mapM _ items) as [l'|] eqn:Hl'; simpl in Hl; [|done].
    apply elem_of_cons in Hkv as [[= <- <-]|Hkv]; [|by eapply IH].
    apply str_Ok in Hs' as [? _]. done.
  - by apply prepare_search_Raise in Hp as [-> _].
Qed.

(** tasks.py:121 on the whole list. *)
Lemma prepare_list_Ok (search_list : list (gmap string Py.value)) :
  Forall renders search_list →
  mapM prepare_search search_list
  = Ok ((λ search : gmap string Py.value, rendering <$> search) <$> search_list).
Proof.
  induction 1 as [|search search_list Hs _ IH]; [done|].
  cbn [mapM]. by rewrite prepare_search_Ok, IH.
Qed.

Lemma prepare_list_spec (search_list : list (gmap string Py.value)) :
  mapM prepare_search search_list
  = if decide (Forall renders search_list)
    then Ok ((λ search : gmap string Py.value, rendering <$> search) <$> search_list)
    else Raise ValueError.
Proof.
  case_decide as Hall; [by apply prepare_list_Ok|].
  induction search_list as [|search search_list IH]; [by destruct Hall|].
  cbn [mapM]. rewrite prepare_search_spec. case_decide as Hs; [|done]. simpl.
  rewrite IH; [done|]. intros ?. apply Hall. by constructor.
Qed.

End rendering.

(** * Matching *)

Section matching.
Context `{SetOrder}.

Lemma weight_weight_spec n : weight n = weight_spec n.
Proof.
  unfold weight, weight_spec.
  destruct (Z.even n) eqn:He.
  - apply Z.even_spec in He as [m ->]. rewrite Z.mul_comm, Z.mod_mul by lia. done.
  - destruct (n `mod` 2 =? 0) eqn:Hm; [|done]. apply Z.eqb_eq in Hm.
    apply Z.mod_divide in Hm; [|lia]. destruct Hm as [m ->].
    rewrite Z.even_mul in He. simpl in He. by rewrite orb_true_r in He.
Qed.

Lemma forallb_set_iter (f : string → bool) (K : gset string) :
  forallb f (set_iter K) = bool_decide (set_Forall (λ k, f k = true) K).
Proof.
  destruct (forallb f (set_iter K)) eqn:Hf; symmetry.
  - apply bool_decide_eq_true. intros k Hk. rewrite forallb_forall in Hf.
    apply Hf, list_elem_of_In. rewrite set_iter_perm. by apply elem_of_elements.
  - apply bool_decide_eq_false. intros Hall.
    assert (forallb f (set_iter K) = true) as Htrue; [|congruence].
    apply forallb_forall. intros k Hk%list_elem_of_In.
    rewrite set_iter_perm in Hk. by apply Hall, elem_of_elements.
Qed.

Lemma forallb_row_matches K search r :
  forallb (column_matches search r) (set_iter K)
  = bool_decide (row_matches K search r).
Proof. rewrite forallb_set_iter. by apply bool_decide_ext. Qed.

Lemma column_matches_true search (r : row) k :
  column_matches search r k = true ↔
  ∃ v s, search !! k = Some v ∧ Py.str v = Ok s ∧ r !! k = Some (Some s).
Proof.
  unfold column_matches. split.
  - destruct (search !! k) as [v|]; [|done]. destruct (r !! k) as [[s|]|]; [|done..].
    intros ?%bool_decide_eq_true. eauto.
  - intros (v & s & -> & Hs & ->). by apply bool_decide_eq_true.
Qed.

Lemma row_matches_columns (K : gset string) search (r : row) :
  row_matches K search r ↔
  ∀ k, k ∈ K →
       ∃ v s, search !! k = Some v ∧ Py.str v = Ok s ∧ r !! k = Some (Some s).
Proof.
  unfold row_matches, set_Forall.
  split; intros Hall k Hk; apply column_matches_true; auto.
Qed.

Lemma elem_of_set_iter k (K : gset string) : k ∈ set_iter K ↔ k ∈ K.
Proof. by rewrite set_iter_perm, elem_of_elements. Qed.

(** tasks.py:53 computes [column_matches] on each key in turn, when
    the values of the query have a rendering. *)
Lemma all_keys_equal_forallb r search keys :
  Forall (λ k, is_Some (r !! k) ∧ ∃ v, search !! k = Some v ∧ renderable v) keys →
  all_keys_equal r search keys = Ok (forallb (column_matches search r) keys).
Proof.
  induction 1 as [|k keys [[f Hf] (v & Hv & Hrender)] _ IH]; simpl; [done|].
  unfold getitem at 1 2, column_matches at 1. rewrite Hf, Hv. simpl.
  rewrite (str_renderable v) by done. simpl.
  destruct f as [s|].
  - case_bool_decide as Hs.
    + simplify_eq. by rewrite bool_decide_true.
    + rewrite bool_decide_false by congruence. done.
  - by rewrite bool_decide_false.
Qed.

(** tasks.py:130-134 computes it too, on the prepared query. *)
Lemma keys_match_forallb r (search : gmap string Py.value) keys :
  Forall (λ k, is_Some (r !! k) ∧ ∃ v, search !! k = Some v ∧ renderable v) keys →
  keys_match r (rendering <$> search) keys
  = Ok (forallb (column_matches search r) keys).
Proof.
  induction 1 as [|k keys [[f Hf] (v & Hv & Hrender)] _ IH]; simpl; [done|].
  unfold getitem at 1 2, column_matches at 1.
  rewrite Hf, lookup_fmap, Hv. simpl. rewrite (str_renderable v) by done.
  destruct f as [s|].
  - case_bool_decide as Hs.
    + rewrite bool_decide_false by congruence. done.
    + simplify_eq. by rewrite bool_decide_true.
  - by rewrite bool_decide_true.
Qed.

Lemma keys_present (K : gset string) (r : row) (search : gmap string Py.value) :
  K ⊆ dom r → K ⊆ dom search → renders search →
  Forall (λ k, is_Some (r !! k) ∧ ∃ v, search !! k = Some v ∧ renderable v)
    (set_iter K).
Proof.
  intros Hr Hs Hrender. apply Forall_forall. intros k Hk%elem_of_set_iter.
  split; [apply elem_of_dom; auto|].
  assert (is_Some (search !! k)) as [v Hv] by (apply elem_of_dom; auto).
  exists v. split; [done|]. by apply (Hrender k v).
Qed.

Lemma task1_scan_spec (K : gset string) search rows :
  dom search = K → renders search → Forall (λ r, K ⊆ dom r) rows →
  task1_scan search (set_iter (dom search)) rows =
  match first_match K search rows with
  | Some r => getitem r "value"
  | None => Ok NOT_FOUND
  end.
Proof.
  intros HK Hrender. rewrite HK. induction 1 as [|r rows Hr _ IH]; simpl; [done|].
  rewrite all_keys_equal_forallb by (apply keys_present; [done|by rewrite HK|done]).
  simpl. rewrite forallb_row_matches. by case_bool_decide.
Qed.

Lemma scan_rows_spec (K : gset string) (search : gmap string Py.value) rows totals :
  K ⊆ dom search → renders search → Forall (λ r, K ⊆ dom r) rows →
  scan_rows (set_iter K) (rendering <$> search) rows totals =
  match first_match K search rows with
  | Some r =>
      val ← row_value r;
      Ok (totals.1 + val * weight_spec val, totals.2 + weight_spec val)
  | None => Ok totals
  end.
Proof.
  intros HK Hrender. induction 1 as [|r rows Hr _ IH]; simpl; [done|].
  rewrite keys_match_forallb by by apply keys_present.
  simpl. rewrite forallb_row_matches.
  case_bool_decide; [|done]. unfold row_value.
  destruct (getitem r "value") as [v|]; simpl; [|done].
  destruct (Py.int v) as [val|]; simpl; [|done]. by rewrite weight_weight_spec.
Qed.

Lemma scan_searches_spec (K : gset string) rows
    (search_list : list (gmap string Py.value)) totals :
  Forall (λ search, K ⊆ dom search) search_list → Forall renders search_list →
  Forall (λ r, K ⊆ dom r) rows →
  scan_searches (set_iter K) rows
    ((λ search : gmap string Py.value, rendering <$> search) <$> search_list) totals =
  vals ← mapM row_value (omap (λ search, first_match K search rows) search_list);
  Ok (totals.1 + Zsum ((λ v, v * weight_spec v) <$> vals),
      totals.2 + Zsum (weight_spec <$> vals)).
Proof.
  intros Hsl Hrender Hrows. revert totals.
  induction Hsl as [|search search_list Hs _ IH]; intros [tv tw]; simpl.
  { do 2 f_equal; lia. }
  apply Forall_cons in Hrender as [Hrender Hrenders].
  rewrite scan_rows_spec by done.
  destruct (first_match K search rows) as [r|]; simpl; [|by apply IH].
  destruct (row_value r) as [val|]; simpl; [|done].
  rewrite IH by done. simpl.
  destruct (mapM row_value _) as [vals|]; simpl; [|done].
  by rewrite !Z.add_assoc.
Qed.

End matching.

(** * The two tasks on a parsed table *)

Section tasks.
Context `{SetOrder}.

Lemma same_columns_key_columns (rows : list row) (K : gset string) :
  Forall (λ r, dom r = K) rows →
  Forall (λ r, key_columns rows ⊆ dom r) rows.
Proof.
  intros Hall. destruct rows as [|row0 rows]; [done|].
  apply Forall_cons in Hall as Hrow0. destruct Hrow0 as [Hrow0 _].
  eapply Forall_impl; [done|]. simpl. intros r ->. set_solver.
Qed.

(** In a state the program reaches, the rows it works on are the parse
    of the text, from the cache or not. *)
Lemma get_rows_result data st : state_inv st → (get_rows data st).1 = parse data.
Proof.
  intros Hinv. unfold get_rows. destruct (_cache st !! data) as [rows|] eqn:Hc.
  - symmetry. by apply Hinv.
  - by destruct (parse data).
Qed.

Lemma reachable_rows calls data rows st' :
  get_rows data (run calls initial_state) = (Ok rows, st') →
  parse data = Ok rows ∧ Forall (λ r, key_columns rows ⊆ dom r) rows.
Proof.
  intros Hget. assert (parse data = Ok rows) as Hparse.
  { rewrite <-(get_rows_result data (run calls initial_state)) by apply run_inv.
    by rewrite Hget. }
  split; [done|]. destruct (parse_same_columns _ _ Hparse) as [K HK].
  by eapply same_columns_key_columns.
Qed.

Lemma task1_rows_spec search rows :
  Forall (λ r, key_columns rows ⊆ dom r) rows →
  dom search = key_columns rows →
  renders search →
  task1_rows search rows = lookup_spec search rows.
Proof.
  intros Hrows Hsearch Hrender. unfold task1_rows, lookup_spec.
  destruct rows as [|row0 rows]; [done|].
  rewrite bool_decide_false by (intros Hne; by apply Hne).
  by apply task1_scan_spec.
Qed.

Lemma task2_rows_spec search_list rows :
  rows ≠ [] →
  Forall (λ r, key_columns rows ⊆ dom r) rows →
  Forall (λ search, key_columns rows ⊆ dom search) search_list →
  Forall renders search_list →
  task2_rows search_list rows = aggregate_spec search_list rows.
Proof.
  intros Hne Hrows Hsl Hrender. unfold task2_rows, aggregate_spec.
  destruct rows as [|row0 rows]; [done|].
  change (dom row0 ∖ {["value"]}) with (key_columns (row0 :: rows)).
  rewrite prepare_list_Ok by done. cbn [mbind result_bind].
  rewrite scan_searches_spec by done.
  by destruct (mapM row_value _).
Qed.

Lemma find_first {A} (f : A → bool) (l : list A) i x :
  l !! i = Some x → f x = true →
  (∀ j y, (j < i)%nat → l !! j = Some y → f y = false) →
  List.find f l = Some x.
Proof.
  revert i. induction l as [|z l IH]; intros [|i] Hi Hx Hbefore; simplify_eq/=.
  - by rewrite Hx.
  - rewrite (Hbefore 0%nat z) by (done || lia).
    apply (IH i); [done..|]. intros j y ? ?. apply (Hbefore (S j)); [lia|done].
Qed.

Lemma find_none {A} (f : A → bool) (l : list A) :
  (∀ x, x ∈ l → f x = false) → List.find f l = None.
Proof.
  induction l as [|z l IH]; intros Hall; simpl; [done|].
  rewrite Hall by left. apply IH. intros x ?. apply Hall. by right.
Qed.

Lemma find_some_elem {A} (f : A → bool) (l : list A) x :
  x ∈ l → f x = true → ∃ y, List.find f l = Some y ∧ f y = true.
Proof.
  induction 1 as [x l|x z l _ IH]; intros Hx; simpl.
  - rewrite Hx. eauto.
  - destruct (f z) eqn:Hz; eauto.
Qed.

End tasks.

(** * Exact-Match Lookup *)

(** C1, as the code has it.  In any state the program reaches, when
    the table for [data] is not empty, the query's key set is the schema
    minus the value column and [str] renders every value of the query:
    if row [i] is the first row, in table order, whose string in every
    key column equals [str] of the query's value for that column,
    [task1] returns that row's value field; if no row is such, [task1]
    returns the sentinel string -1.  A row matches when for every key
    column the query holds a value, [str] renders it, and the row holds
    that very string.  [str] of a string is the string, [str] of an
    [int] of at most 4300 digits is its decimal numeral (1 for the
    integer 1), of a longer one a [ValueError], and [str] of a boolean
    or [None] is its Python name. *)
Theorem task1_exact_match `{SetOrder} calls search data rows st' :
  get_rows data (run calls initial_state) = (Ok rows, st') →
  rows ≠ [] →
  dom search = key_columns rows →
  renders search →
  (∀ i r v,
     rows !! i = Some r →
     row_matches (key_columns rows) search r →
     (∀ j r', (j < i)%nat → rows !! j = Some r' →
              ¬ row_matches (key_columns rows) search r') →
     r !! "value" = Some v →
     task1 search data (run calls initial_state) = (Ok v, st')) ∧
  ((∀ r, r ∈ rows → ¬ row_matches (key_columns rows) search r) →
   task1 search data (run calls initial_state) = (Ok (Some "-1"), st')) ∧
  (∀ r, row_matches (key_columns rows) search r ↔
        ∀ k, k ∈ key_columns rows →
             ∃ v s, search !! k = Some v ∧ Py.str v = Ok s ∧ r !! k = Some (Some s)) ∧
  (∀ v, renderable v ↔ ∃ s, Py.str v = Ok s) ∧
  (∀ s, Py.str (Py.VStr s) = Ok s) ∧
  (∀ n, Z.abs n < 10 ^ 4300 → Py.str (Py.VInt n) = Ok (pretty n)) ∧
  (∀ n, 10 ^ 4300 ≤ Z.abs n → Py.str (Py.VInt n) = Raise ValueError) ∧
  Py.str (Py.VInt 1) = Ok "1" ∧ Py.str (Py.VInt (-12)) = Ok "-12" ∧
  Py.str (Py.VBool true) = Ok "True" ∧ Py.str (Py.VBool false) = Ok "False" ∧
  Py.str Py.VNone = Ok "None".
Proof.
  intros Hget Hne Hsearch Hrender.
  destruct (reachable_rows _ _ _ _ Hget) as [_ Hrows].
  unfold task1. rewrite Hget, task1_rows_spec by done. unfold lookup_spec, first_match.
  split_and!.
  - intros i r v Hi Hr Hbefore Hv.
    rewrite (find_first _ _ i r); [|done|by apply bool_decide_eq_true|].
    + unfold getitem. by rewrite Hv.
    + intros j r' ? ?. apply bool_decide_eq_false. eauto.
  - intros Hnone. rewrite find_none; [done|].
    intros r ?. apply bool_decide_eq_false. eauto.
  - intros r. apply row_matches_columns.
  - intros v. split; [intros Hv; by eauto using str_renderable|].
    by intros [s [? _]%str_Ok].
  - done.
  - rewrite <-long_int_eq. apply str_int_small.
  - rewrite <-long_int_eq. apply str_int_large.
  - vm_compute. reflexivity.
  - vm_compute. reflexivity.
  - done.
  - done.
  - done.
Qed.

(** C4.  When the table for [data] is not empty and the query's key set
    differs from the schema minus the value column, in either
    direction, [task1] raises the Key-Mismatch exception. *)
Theorem task1_key_mismatch `{SetOrder} search data st rows st' :
  get_rows data st = (Ok rows, st') →
  rows ≠ [] →
  dom search ≠ key_columns rows →
  task1 search data st = (Raise KeyMismatch, st').
Proof.
  intros Hget Hne Hkeys. unfold task1. rewrite Hget. f_equal.
  destruct rows as [|row0 rows]; [done|]. unfold task1_rows.
  by rewrite bool_decide_true.
Qed.

(** C8.  When the table for [data] has no rows, [task1] returns the
    string -1 and [task2] the string 0.0, whatever the queries are. *)
Theorem empty_table_sentinels `{SetOrder} search search_list data st st' :
  get_rows data st = (Ok [], st') →
  task1 search data st = (Ok (Some "-1"), st') ∧
  task2 search_list data st = (Ok "0.0", st').
Proof. intros Hget. unfold task1, task2. by rewrite Hget. Qed.

(** * Memoization *)

(** C3, as the code has it.  A cache entry is reused and kept: in any
    state in which [_cache] holds rows for [data], whatever these rows
    are, [task1] and [task2] on [data] work on exactly these rows and
    leave the cache and the trace of parser runs as they are, and after
    any further calls the entry is still the same rows and the parser
    has not run again on [data].  In any state the program reaches, a
    text that parses has been parsed at most once, it is cached as soon
    as it has been parsed, and a cache entry is the parse of its text,
    which was parsed exactly once.  A text whose parse raises is never
    cached, and every call on it runs the parser again. *)
Theorem cache_memoization `{SetOrder} data :
  (∀ st rows,
     _cache st !! data = Some rows →
     (∀ search, task1 search data st = (task1_rows search rows, st)) ∧
     (∀ search_list, task2 search_list data st = (task2_rows search_list rows, st)) ∧
     (∀ more,
        _cache (run more st) !! data = Some rows ∧
        parse_count data (run more st) = parse_count data st)) ∧
  (∀ calls rows,
     parse data = Ok rows →
     (parse_count data (run calls initial_state) ≤ 1)%nat ∧
     (data ∈ parse_log (run calls initial_state) →
      _cache (run calls initial_state) !! data = Some rows)) ∧
  (∀ calls rows,
     _cache (run calls initial_state) !! data = Some rows →
     parse data = Ok rows ∧ parse_count data (run calls initial_state) = 1%nat) ∧
  (∀ calls c e,
     parse data = Raise e →
     call_data c = data →
     _cache (run calls initial_state) !! data = None ∧
     parse_count data (run (calls ++ [c]) initial_state)
     = S (parse_count data (run calls initial_state))).
Proof.
  split_and!.
  - intros st rows Hc. split_and!.
    + intros search. unfold task1. by rewrite (get_rows_hit _ _ rows).
    + intros search_list. unfold task2. by rewrite (get_rows_hit _ _ rows).
    + intros more. split; [by apply run_preserves|by apply (run_hit_log more _ data rows)].
  - intros calls rows Hparse. pose proof (run_inv calls) as Hinv.
    destruct (_cache (run calls initial_state) !! data) as [rows'|] eqn:Hc.
    + rewrite (inv_once _ Hinv data) by eauto.
      apply Hinv in Hc. split; [lia|congruence].
    + split.
      * destruct (decide (data ∈ parse_log (run calls initial_state))) as [Hin|Hnot].
        -- destruct (inv_failed _ Hinv data Hc Hin). congruence.
        -- rewrite parse_count_0 by done. lia.
      * intros Hin. destruct (inv_failed _ Hinv data Hc Hin). congruence.
  - intros calls rows Hc. pose proof (run_inv calls) as Hinv.
    split; [by apply Hinv|]. apply Hinv. eauto.
  - intros calls c e Hparse <-. pose proof (run_inv calls) as Hinv.
    assert (_cache (run calls initial_state) !! call_data c = None) as Hc.
    { destruct (_cache _ !! call_data c) as [rows|] eqn:Hc; [|done].
      apply Hinv in Hc. congruence. }
    split; [done|].
    rewrite run_snoc, run_call_data, get_rows_miss, Hparse by done.
    simpl. rewrite (parse_count_snoc (call_data c) (call_data c)).
    rewrite decide_True by done. lia.
Qed.

(** * Malformed input *)

Section malformed.
Context `{SetOrder}.

Lemma parse_long_record data fieldnames records e :
  Csv.reader_of data = (fieldnames :: records, e) →
  Exists (λ record, (length fieldnames < length record)%nat) records →
  parse data = Raise AttributeError.
Proof.
  intros Hreader Hlong. unfold parse, DictReader. rewrite Hreader.
  by apply clean_rows_surplus, dict_rows_surplus.
Qed.

Lemma parse_short_records data fieldnames records :
  Csv.reader_of data = (fieldnames :: records, None) →
  Forall (λ record, (length record ≤ length fieldnames)%nat) records →
  ∃ rows, parse data = Ok rows.
Proof.
  intros Hreader Hshort. unfold parse, DictReader. rewrite Hreader.
  apply dict_rows_no_surplus in Hshort.
  induction Hshort as [|raw raws Hraw _ [rows IH]]; simpl; [by eexists|].
  unfold clean_row at 1. rewrite Hraw, IH. simpl. by eexists.
Qed.

End malformed.

(** C5, as the code has it.  When the text is not cached and some
    record after the header has more fields than the header, [task1] and
    [task2] raise (the exception of stripping the list of surplus
    fields) and the cache is left as it was.  When the reader ends
    normally and no record has more fields than the header, records with
    fewer fields included, the text parses and its rows are cached. *)
Theorem long_record_fails `{SetOrder} search search_list data st fieldnames records e :
  _cache st !! data = None →
  Csv.reader_of data = (fieldnames :: records, e) →
  (Exists (λ record, (length fieldnames < length record)%nat) records →
   (task1 search data st).1 = Raise AttributeError ∧
   _cache (task1 search data st).2 = _cache st ∧
   (task2 search_list data st).1 = Raise AttributeError ∧
   _cache (task2 search_list data st).2 = _cache st) ∧
  (e = None →
   Forall (λ record, (length record ≤ length fieldnames)%nat) records →
   ∃ rows, parse data = Ok rows ∧
           _cache (task1 search data st).2 !! data = Some rows ∧
           _cache (task2 search_list data st).2 !! data = Some rows).
Proof.
  intros Hc Hreader. split.
  - intros Hlong. unfold task1, task2. rewrite get_rows_miss by done.
    by rewrite (parse_long_record _ _ _ _ Hreader Hlong).
  - intros -> Hshort.
    destruct (parse_short_records _ _ _ Hreader Hshort) as [rows Hrows].
    exists rows. rewrite task1_state, task2_state, get_rows_miss by done.
    rewrite Hrows. simpl. by rewrite lookup_insert_eq.
Qed.

(** * Normalization of fields *)

(** C9.  Every field of every parsed row is the field the reader
    yielded in that column of that row, with its leading and trailing
    white space removed and then its leading and trailing single and
    double quote characters removed; a field the reader yielded as absent
    is absent in the parsed row, and the row has no other columns. *)
Theorem field_normalization data rows :
  parse data = Ok rows →
  ∃ raws,
    DictReader data = (raws, None) ∧
    Forall2 (λ raw (row : row), ∀ k,
      match named raw !! k with
      | Some (Some s) =>
          ∃ w t, stripped_of Py.isspace s w ∧
                 stripped_of (λ c, bool_decide (c = "'"%char ∨ c = Csv.quotechar)) w t ∧
                 row !! k = Some (Some t)
      | Some None => row !! k = Some None
      | None => row !! k = None
      end) raws rows.
Proof.
  intros (raws & Hreader & Hclean)%parse_Ok. exists raws. split; [done|].
  eapply Forall2_impl; [done|]. simpl. intros raw row [_ ->]%clean_row_Ok k.
  rewrite lookup_fmap. destruct (named raw !! k) as [[s|]|]; simpl; [|done..].
  eexists _, _. split_and!; [apply strip_stripped_of| |done].
  assert (∀ c, Py.char_in quote_chars c
               = bool_decide (c = "'"%char ∨ c = Csv.quotechar)) as Hquote.
  { intros c. unfold quote_chars. simpl. rewrite orb_false_r.
    destruct (Ascii.eqb_spec c "'"), (Ascii.eqb_spec c Csv.quotechar); simpl;
      symmetry; (by apply bool_decide_eq_true; auto)
                || (apply bool_decide_eq_false; by intros [?|?]). }
  destruct (strip_stripped_of (Py.char_in quote_chars) (Py.strip Py.isspace s))
    as (pre & post & Hs & Hpre & Hpost & Hhead & Hlast).
  exists pre, post. split_and!; [done|..].
  - clear -Hpre Hquote. induction pre as [|c pre IH]; simpl in *; [done|].
    apply andb_prop in Hpre as [Hc ?]. rewrite <-Hquote, Hc. auto.
  - clear -Hpost Hquote. induction post as [|c post IH]; simpl in *; [done|].
    apply andb_prop in Hpost as [Hc ?]. rewrite <-Hquote, Hc. auto.
  - intros c ?. rewrite <-Hquote. auto.
  - intros c ?. rewrite <-Hquote. auto.
Qed.

(** * Weighted Aggregator *)

Section aggregator.
Context `{SetOrder}.

Lemma task2_result search_list data st :
  state_inv st →
  (task2 search_list data st).1 = rows ← parse data; task2_rows search_list rows.
Proof.
  intros Hinv. unfold task2.
  pose proof (get_rows_result data st Hinv) as Hget.
  destruct (get_rows data st) as [[rows|e] st']; simpl in *; by rewrite <-Hget.
Qed.

(** The inner loops read a prepared query on the key columns only. *)
Lemma keys_match_agree (r : row) (s s' : gmap string string) keys :
  (∀ k, k ∈ keys → s !! k = s' !! k) →
  keys_match r s keys = keys_match r s' keys.
Proof.
  induction keys as [|k keys IH]; intros Hagree; simpl; [done|].
  unfold getitem. rewrite <-(Hagree k) by left.
  destruct (r !! k); simpl; [|done]. destruct (s !! k); simpl; [|done].
  case_bool_decide; [done|]. apply IH. intros k' ?. apply Hagree. by right.
Qed.

Lemma scan_rows_agree keys (s s' : gmap string string) rows totals :
  (∀ k, k ∈ keys → s !! k = s' !! k) →
  scan_rows keys s rows totals = scan_rows keys s' rows totals.
Proof.
  intros Hagree. induction rows as [|r rows IH]; simpl; [done|].
  rewrite (keys_match_agree r s s') by done.
  destruct (keys_match r s' keys) as [[]|]; simpl; auto.
Qed.

Lemma scan_searches_agree keys rows (l l' : list (gmap string string)) totals :
  Forall2 (λ s s', ∀ k, k ∈ keys → s !! k = s' !! k) l l' →
  scan_searches keys rows l totals = scan_searches keys rows l' totals.
Proof.
  intros Hall. revert totals.
  induction Hall as [|s s' l l' Hs _ IH]; intros totals; simpl; [done|].
  rewrite (scan_rows_agree keys s s') by done.
  destruct (scan_rows keys s' rows totals); simpl; auto.
Qed.

Lemma scan_searches_app keys rows (l l' : list (gmap string string)) totals :
  scan_searches keys rows (l ++ l') totals =
  totals' ← scan_searches keys rows l totals; scan_searches keys rows l' totals'.
Proof.
  revert totals. induction l as [|s l IH]; intros totals; simpl; [done|].
  destruct (scan_rows keys s rows totals); simpl; auto.
Qed.

Lemma scan_searches_missing keys rows before (s : gmap string string) after
    totals0 totals e :
  scan_searches keys rows before totals0 = Ok totals →
  scan_rows keys s rows totals = Raise e →
  scan_searches keys rows (before ++ s :: after) totals0 = Raise e.
Proof. intros Hb Hs. rewrite scan_searches_app, Hb. simpl. by rewrite Hs. Qed.

(** A prepared query that lacks one of the keys never matches a row:
    the loop over the keys stops at a differing key or raises at a key
    the query lacks. *)
Lemma keys_match_missing (r : row) (s : gmap string string) keys :
  Forall (λ k, is_Some (r !! k)) keys →
  Exists (λ k, s !! k = None) keys →
  keys_match r s keys = Ok false ∨
  ∃ k, k ∈ keys ∧ s !! k = None ∧ keys_match r s keys = Raise (KeyError k).
Proof.
  induction 1 as [|k keys [f Hf] _ IH]; intros Hmiss; [by apply Exists_nil in Hmiss|].
  simpl. unfold getitem. rewrite Hf. simpl.
  destruct (s !! k) as [v|] eqn:Hk; simpl.
  - case_bool_decide; [by left|].
    apply Exists_cons in Hmiss as [?|Hmiss]; [congruence|].
    destruct (IH Hmiss) as [?|(k' & ? & ? & ?)]; [by left|].
    right. exists k'. split_and!; [by right|done..].
  - right. exists k. split_and!; [by left|done..].
Qed.

Lemma keys_match_missing_agree (r : row) (s : gmap string string) keys :
  Forall (λ k, is_Some (r !! k)) keys →
  Exists (λ k, s !! k = None) keys →
  (∀ k v, k ∈ keys → s !! k = Some v → r !! k = Some (Some v)) →
  ∃ k, k ∈ keys ∧ s !! k = None ∧ keys_match r s keys = Raise (KeyError k).
Proof.
  induction 1 as [|k keys [f Hf] _ IH]; intros Hmiss Hagree;
    [by apply Exists_nil in Hmiss|].
  simpl. unfold getitem. rewrite Hf. simpl.
  destruct (s !! k) as [v|] eqn:Hk; simpl.
  - rewrite (Hagree k v) in Hf by (done || left). simplify_eq.
    rewrite bool_decide_false by (by intros []).
    apply Exists_cons in Hmiss as [?|Hmiss]; [congruence|].
    destruct (IH Hmiss) as (k' & ? & ? & ?).
    { intros k' v' ? ?. apply Hagree; [by right|done]. }
    exists k'. split_and!; [by right|done..].
  - exists k. split_and!; [by left|done..].
Qed.

Lemma scan_rows_missing keys (s : gmap string string) rows totals :
  Forall (λ r : row, Forall (λ k, is_Some (r !! k)) keys) rows →
  Exists (λ k, s !! k = None) keys →
  scan_rows keys s rows totals = Ok totals ∨
  ∃ k, k ∈ keys ∧ s !! k = None ∧
       scan_rows keys s rows totals = Raise (KeyError k).
Proof.
  intros Hrows Hmiss. induction Hrows as [|r rows Hr _ IH]; simpl; [by left|].
  destruct (keys_match_missing r s keys Hr Hmiss) as [->|(k & ? & ? & ->)]; simpl; eauto.
Qed.

Lemma scan_rows_missing_agree keys (s : gmap string string) rows totals :
  Forall (λ r : row, Forall (λ k, is_Some (r !! k)) keys) rows →
  Exists (λ k, s !! k = None) keys →
  Exists (λ r : row, ∀ k v, k ∈ keys → s !! k = Some v → r !! k = Some (Some v)) rows →
  ∃ k, k ∈ keys ∧ s !! k = None ∧
       scan_rows keys s rows totals = Raise (KeyError k).
Proof.
  intros Hrows Hmiss Hagree.
  induction Hagree as [r rows Hr|r rows _ IH];
    apply Forall_cons in Hrows as [Hkeys Hrows]; simpl.
  - destruct (keys_match_missing_agree r s keys Hkeys Hmiss Hr) as (k & ? & ? & ->).
    simpl. eauto.
  - destruct (keys_match_missing r s keys Hkeys Hmiss) as [->|(k & ? & ? & ->)];
      simpl; eauto.
Qed.

(** Without a missing key, the only exceptions are those of reading and
    parsing a matched value and of the final division. *)
Lemma row_value_Raise r e :
  row_value r = Raise e → e = KeyError "value" ∨ e = TypeError ∨ e = ValueError.
Proof.
  unfold row_value, getitem. destruct (r !! "value") as [[s|]|]; simpl;
    [|intros [= <-]; auto..].
  unfold Py.int_of_str, Py.int_unsigned.
  repeat case_match; simpl; intros [= <-]; auto.
Qed.

Lemma mapM_row_value_Raise l e :
  mapM row_value l = Raise e →
  e = KeyError "value" ∨ e = TypeError ∨ e = ValueError.
Proof.
  induction l as [|r l IH]; simpl; [done|].
  destruct (row_value r) eqn:Hr; simpl; [|intros [= <-]; by eapply row_value_Raise].
  destruct (mapM row_value l); simpl; [done|]. intros [= <-]. by apply IH.
Qed.

Lemma true_div_Raise a b e : b ≠ 0 → Py.true_div a b = Raise e → e = OverflowError.
Proof.
  intros Hb. unfold Py.true_div. rewrite (proj2 (Z.eqb_neq b 0)) by done.
  repeat case_match; by intros [= <-].
Qed.

Lemma weighted_average_Raise vals e :
  weighted_average vals = Raise e → e = OverflowError.
Proof.
  unfold weighted_average. destruct (_ =? 0) eqn:Hw; [done|].
  apply Z.eqb_neq in Hw.
  destruct (Py.true_div _ _) eqn:Hd; simpl; [done|]. intros [= <-].
  by eapply true_div_Raise.
Qed.

(** [int] rejects a string with a character no integer literal has. *)
Lemma isdigit_int_char c : Py.isdigit c = true → int_char c = true.
Proof. destruct c as [[] [] [] [] [] [] [] []]; vm_compute; congruence. Qed.

Lemma int_isspace_int_char c : Py.int_isspace c = true → int_char c = true.
Proof. unfold int_char. intros ->. apply orb_true_r. Qed.

Lemma string_forall_impl (p q : ascii → bool) s :
  (∀ c, p c = true → q c = true) →
  string_forall p s = true → string_forall q s = true.
Proof.
  intros Hpq. induction s as [|c s IH]; simpl; [done|].
  intros [Hc Hs]%andb_true_iff. by rewrite (Hpq c Hc), IH.
Qed.

Lemma int_body_chars s acc ndigits after_digit r :
  Py.int_body s acc ndigits after_digit = Some r → string_forall int_char s = true.
Proof.
  revert acc ndigits after_digit.
  induction s as [|c s IH]; intros acc ndigits after_digit; simpl; [done|].
  destruct (Py.isdigit c) eqn:Hd.
  - intros ?%IH. by rewrite isdigit_int_char.
  - destruct (Ascii.eqb c "_" && after_digit) eqn:Hu; [|done].
    apply andb_true_iff in Hu as [->%Ascii.eqb_eq _]. by intros ->%IH.
Qed.

Lemma int_unsigned_bad s :
  string_forall int_char s = false → Py.int_unsigned s = Raise ValueError.
Proof.
  intros Hs. unfold Py.int_unsigned.
  destruct (Py.int_body s 0 0 false) as [[n ndigits]|] eqn:Hb; [|done].
  apply int_body_chars in Hb. congruence.
Qed.

Lemma int_of_str_bad s :
  string_forall int_char s = false → Py.int_of_str s = Raise ValueError.
Proof.
  intros Hs. unfold Py.int_of_str.
  destruct (strip_stripped_of Py.int_isspace s)
    as (pre & post & Heq & Hpre & Hpost & _).
  assert (string_forall int_char (Py.strip Py.int_isspace s) = false) as Ht.
  { rewrite Heq, !string_forall_app in Hs.
    rewrite (string_forall_impl _ int_char pre int_isspace_int_char Hpre) in Hs.
    rewrite (string_forall_impl _ int_char post int_isspace_int_char Hpost) in Hs.
    by rewrite andb_true_r in Hs. }
  destruct (Py.strip Py.int_isspace s) as [|c t]; [done|].
  destruct c as [[] [] [] [] [] [] [] []];
    first [by apply int_unsigned_bad
          |change (string_forall int_char t = false) in Ht;
           by rewrite (int_unsigned_bad t Ht)].
Qed.

(** The first matched value that does not parse decides the exception. *)
Lemma mapM_row_value_first_Raise (before : list row) r after e :
  Forall (λ r', ∃ n, row_value r' = Ok n) before →
  row_value r = Raise e →
  mapM row_value (before ++ r :: after) = Raise e.
Proof.
  intros Hbefore Hr. induction Hbefore as [|r' before [n Hn] _ IH].
  - cbn [app mapM]. by rewrite Hr.
  - rewrite <-app_comm_cons. cbn [mapM]. by rewrite Hn, IH.
Qed.

Lemma aggregate_spec_first_Raise (before : list (gmap string Py.value)) search after
    rows r e :
  Forall (λ q, ∀ r', first_match (key_columns rows) q rows = Some r' →
                     ∃ n, row_value r' = Ok n) before →
  first_match (key_columns rows) search rows = Some r →
  row_value r = Raise e →
  aggregate_spec (before ++ search :: after) rows = Raise e.
Proof.
  intros Hbefore Hfirst Hr. unfold aggregate_spec.
  rewrite omap_app. cbn [omap list_omap]. rewrite Hfirst.
  rewrite (mapM_row_value_first_Raise _ r _ e); [done| |done].
  apply Forall_forall. intros r' (q & Hq & Hr')%list_elem_of_omap.
  rewrite Forall_forall in Hbefore. by apply (Hbefore q).
Qed.

Lemma weighted_average_one_decimal vals s :
  weighted_average vals = Ok s → one_decimal s.
Proof.
  unfold weighted_average. destruct (_ =? 0).
  - intros [= <-]. exists EmptyString, "0", "0"%char. by auto.
  - destruct (Py.true_div _ _) as [x|] eqn:Hx; simpl; [|done]. intros [= <-].
    by eapply format_1f_one_decimal, true_div_mant_nonneg.
Qed.

End aggregator.

(** C2, as the code has it.  In any state the program reaches, when
    the table for [data] is not empty, every query has a value for
    every key column and [str] renders every value of every query:
    [task2] returns what [aggregate_spec] describes, that is, it takes
    per query the first matching row only, parses the value fields of
    these rows as integers in query order and fails with the exception
    of the first that does not parse, weighs an even value 20 and an odd
    one 10, and returns 0.0 when the weights sum to zero and otherwise
    the sum of value times weight divided by the sum of weights in the
    [.1f] format.  A result is a decimal string with exactly one digit
    after the point; a failure is that of reading or parsing a value
    field, or of a quotient beyond the range of a float.  When the
    value field of a query's first matching row does not parse and the
    matched value fields of the queries before it do, [task2] raises the
    exception of that field, which is a [ValueError] for a string with a
    character no integer literal has and for the empty string, and a
    [TypeError] for an absent field.  The matched values 10 and 15 give
    350/30, rendered 11.7. *)
Theorem task2_weighted_average `{SetOrder} calls search_list data rows st' :
  get_rows data (run calls initial_state) = (Ok rows, st') →
  rows ≠ [] →
  Forall (λ search, key_columns rows ⊆ dom search) search_list →
  Forall renders search_list →
  task2 search_list data (run calls initial_state)
  = (aggregate_spec search_list rows, st') ∧
  (∀ s, aggregate_spec search_list rows = Ok s → one_decimal s) ∧
  (∀ e, aggregate_spec search_list rows = Raise e →
        e = KeyError "value" ∨ e = TypeError ∨ e = ValueError
        ∨ e = OverflowError) ∧
  (∀ before search after r e,
     search_list = (before ++ search :: after)%list →
     Forall (λ q, ∀ r', first_match (key_columns rows) q rows = Some r' →
                        ∃ n, row_value r' = Ok n) before →
     first_match (key_columns rows) search rows = Some r →
     row_value r = Raise e →
     task2 search_list data (run calls initial_state) = (Raise e, st')) ∧
  (∀ r s, r !! "value" = Some (Some s) → string_forall int_char s = false →
          row_value r = Raise ValueError) ∧
  (∀ r, r !! "value" = Some (Some EmptyString) → row_value r = Raise ValueError) ∧
  (∀ r, r !! "value" = Some None → row_value r = Raise TypeError) ∧
  (∀ r, r !! "value" = Some (Some "10") → row_value r = Ok 10) ∧
  weighted_average [10; 15] = Ok "11.7".
Proof.
  intros Hget Hne Hsl Hrender. destruct (reachable_rows _ _ _ _ Hget) as [_ Hrows].
  assert (task2 search_list data (run calls initial_state)
          = (aggregate_spec search_list rows, st')) as Htask2.
  { unfold task2. by rewrite Hget, task2_rows_spec. }
  split_and!.
  - done.
  - unfold aggregate_spec. intros s.
    destruct (mapM row_value _); simpl; [|done]. apply weighted_average_one_decimal.
  - unfold aggregate_spec. intros e.
    destruct (mapM row_value _) eqn:Hvals; simpl.
    + intros ->%weighted_average_Raise. auto.
    + intros [= <-]. apply mapM_row_value_Raise in Hvals. tauto.
  - intros before search after r e -> Hbefore Hfirst Hr.
    by rewrite Htask2, (aggregate_spec_first_Raise before search after rows r e).
  - intros r s Hv Hs. unfold row_value, getitem. rewrite Hv. simpl.
    by apply int_of_str_bad.
  - intros r Hv. unfold row_value, getitem. by rewrite Hv.
  - intros r Hv. unfold row_value, getitem. by rewrite Hv.
  - intros r Hv. unfold row_value, getitem. by rewrite Hv.
  - vm_compute. reflexivity.
Qed.

(** * Queries with extra or missing keys *)

Section key_sets.
Context `{SetOrder}.

Lemma prepared_agree (sl sl' : list (gmap string Py.value)) (K : gset string) :
  Forall2 (λ s s', ∀ k, k ∈ K → s !! k = s' !! k) sl sl' →
  Forall2 (λ s s' : gmap string string, ∀ k, k ∈ set_iter K → s !! k = s' !! k)
    ((λ search : gmap string Py.value, rendering <$> search) <$> sl)
    ((λ search : gmap string Py.value, rendering <$> search) <$> sl').
Proof.
  intros Hall. apply Forall2_fmap. eapply Forall2_impl; [done|]. simpl.
  intros s s' Hs k Hk%elem_of_set_iter. by rewrite !lookup_fmap, Hs.
Qed.

Lemma task2_rows_agree sl sl' rows :
  Forall2 (λ s s', ∀ k, k ∈ key_columns rows → s !! k = s' !! k) sl sl' →
  (Forall renders sl ↔ Forall renders sl') →
  task2_rows sl rows = task2_rows sl' rows.
Proof.
  intros Hall Hrender. destruct rows as [|row0 rows]; [done|]. unfold task2_rows.
  rewrite !prepare_list_spec.
  destruct (decide (Forall renders sl)) as [Hsl|Hsl].
  - rewrite decide_True by by apply Hrender. cbn [mbind result_bind].
    by rewrite (scan_searches_agree _ _ _ _ _ (prepared_agree sl sl' _ Hall)).
  - rewrite decide_False; [done|]. intros ?. by apply Hsl, Hrender.
Qed.

(** The values of the keys outside [K] render. *)
Lemma renders_agree (K : gset string) (s s' : gmap string Py.value) :
  (∀ k, k ∈ K → s !! k = s' !! k) →
  (∀ k v, k ∉ K → s' !! k = Some v → renderable v) →
  renders s → renders s'.
Proof.
  intros Hagree Hextra Hs k v Hkv. destruct (decide (k ∈ K)) as [Hk|Hk].
  - rewrite <-Hagree in Hkv by done. by apply (Hs k v).
  - by apply (Hextra k v).
Qed.

Lemma renders_list_agree (K : gset string) (sl sl' : list (gmap string Py.value)) :
  Forall2 (λ s s', ∀ k, k ∈ K → s !! k = s' !! k) sl sl' →
  Forall (λ s, ∀ k v, k ∉ K → s !! k = Some v → renderable v) sl' →
  Forall renders sl → Forall renders sl'.
Proof.
  induction 1 as [|s s' sl sl' Hs _ IH]; [done|].
  intros [Hextra Hextras]%Forall_cons [Hrender Hrenders]%Forall_cons.
  constructor; [by eapply renders_agree|by apply IH].
Qed.

Lemma task2_rows_extra_keys sl sl' rows :
  Forall2 (λ s s', ∀ k, k ∈ key_columns rows → s !! k = s' !! k) sl sl' →
  Forall (λ s : gmap string Py.value,
            ∀ k v, k ∉ key_columns rows → s !! k = Some v → renderable v) sl →
  Forall (λ s : gmap string Py.value,
            ∀ k v, k ∉ key_columns rows → s !! k = Some v → renderable v) sl' →
  task2_rows sl rows = task2_rows sl' rows.
Proof.
  intros Hall Hextra Hextra'. apply task2_rows_agree; [done|]. split.
  - by apply (renders_list_agree (key_columns rows)).
  - apply (renders_list_agree (key_columns rows)); [|done].
    apply Forall2_flip. eapply Forall2_impl; [done|]. simpl.
    intros s s' Hs k Hk. symmetry. by apply Hs.
Qed.

(** tasks.py:121 comes before the scan: a value without a rendering
    ends the call on any table with rows. *)
Lemma task2_rows_unrenderable sl rows :
  rows ≠ [] → ¬ Forall renders sl → task2_rows sl rows = Raise ValueError.
Proof.
  intros Hne Hnot. destruct rows as [|row0 rows]; [done|]. unfold task2_rows.
  by rewrite prepare_list_spec, decide_False.
Qed.

Lemma not_subseteq_missing (K D : gset string) :
  K ⊈ D → ∃ k, k ∈ K ∧ k ∉ D.
Proof.
  intros Hnot. destruct (decide (set_Forall (λ k, k ∈ D) K)) as [Hall|Hex].
  - destruct Hnot. intros k ?. by apply Hall.
  - apply not_set_Forall_Exists in Hex; [|apply _].
    destruct Hex as (k & ? & ?). by exists k.
Qed.

Lemma rows_have_keys (K : gset string) (rows : list row) :
  Forall (λ r, K ⊆ dom r) rows →
  Forall (λ r : row, Forall (λ k, is_Some (r !! k)) (set_iter K)) rows.
Proof.
  intros Hrows. eapply Forall_impl; [done|]. simpl. intros r Hr.
  apply Forall_forall. intros k Hk%elem_of_set_iter. apply elem_of_dom. auto.
Qed.

Lemma missing_key_exists (K : gset string) (search : gmap string Py.value) :
  K ⊈ dom search →
  Exists (λ k, (rendering <$> search) !! k = None) (set_iter K).
Proof.
  intros (k0 & Hk0 & Hmiss0)%not_subseteq_missing.
  apply Exists_exists. exists k0. split; [by apply elem_of_set_iter|].
  rewrite lookup_fmap. apply not_elem_of_dom in Hmiss0. by rewrite Hmiss0.
Qed.

Lemma prepared_None (search : gmap string Py.value) k :
  (rendering <$> search) !! k = None → k ∉ dom search.
Proof.
  rewrite lookup_fmap. intros Hnone. apply not_elem_of_dom.
  by destruct (search !! k).
Qed.

(** What the scan for one query can raise. *)
Lemma scan_rows_Raise (K : gset string) (search : gmap string Py.value) rows totals e :
  Forall (λ r, K ⊆ dom r) rows →
  renders search →
  scan_rows (set_iter K) (rendering <$> search) rows totals = Raise e →
  (e = KeyError "value" ∨ e = TypeError ∨ e = ValueError) ∨
  ∃ k, k ∈ K ∧ (k ∉ dom search) ∧ e = KeyError k.
Proof.
  intros Hrows Hrender Hscan. destruct (decide (K ⊆ dom search)) as [Hsub|Hnot].
  - rewrite scan_rows_spec in Hscan by done.
    destruct (first_match K search rows) as [r|]; [|done].
    destruct (row_value r) eqn:Hr; simpl in Hscan; [done|].
    left. simplify_eq. by eapply row_value_Raise.
  - right.
    destruct (scan_rows_missing (set_iter K) (rendering <$> search) rows totals)
      as [Hok|(k & Hk & Hnone & Hraise)];
      [by apply rows_have_keys|by apply missing_key_exists|congruence|].
    exists k. apply elem_of_set_iter in Hk. apply prepared_None in Hnone.
    split_and!; [done..|congruence].
Qed.

Lemma scan_searches_Raise (K : gset string) rows
    (search_list : list (gmap string Py.value)) totals e :
  Forall (λ r, K ⊆ dom r) rows →
  Forall renders search_list →
  scan_searches (set_iter K) rows
    ((λ search : gmap string Py.value, rendering <$> search) <$> search_list) totals
  = Raise e →
  (e = KeyError "value" ∨ e = TypeError ∨ e = ValueError) ∨
  ∃ search k, search ∈ search_list ∧ k ∈ K ∧ (k ∉ dom search) ∧ e = KeyError k.
Proof.
  intros Hrows Hrender. revert totals.
  induction Hrender as [|search search_list Hs _ IH]; intros totals; [done|].
  rewrite fmap_cons. change (scan_searches ?keys ?rs (?s :: ?l) ?t)
    with (scan_rows keys s rs t ≫= scan_searches keys rs l).
  destruct (scan_rows _ _ rows totals) as [totals'|e'] eqn:Hscan.
  - intros [?|(search' & k & ? & ?)]%IH; [by left|].
    right. exists search', k. split; [by right|done].
  - intros [= <-]. apply scan_rows_Raise in Hscan; [|done..].
    destruct Hscan as [?|(k & ? & ? & ?)]; [by left|].
    right. exists search, k. split; [by left|done].
Qed.

Lemma average_Raise totals e : average totals = Raise e → e = OverflowError.
Proof.
  unfold average. destruct (_ =? 0) eqn:Hw; [done|]. apply Z.eqb_neq in Hw.
  destruct (Py.true_div _ _) eqn:Hd; simpl; [done|]. intros [= <-].
  by eapply true_div_Raise.
Qed.

Lemma task2_rows_Raise search_list rows e :
  Forall (λ r, key_columns rows ⊆ dom r) rows →
  task2_rows search_list rows = Raise e →
  (e = KeyError "value" ∨ e = TypeError ∨ e = ValueError ∨ e = OverflowError) ∨
  ∃ search k, search ∈ search_list ∧ k ∈ key_columns rows ∧ (k ∉ dom search)
              ∧ e = KeyError k.
Proof.
  intros Hrows. destruct rows as [|row0 rows]; [done|]. unfold task2_rows.
  change (dom row0 ∖ {["value"]}) with (key_columns (row0 :: rows)).
  rewrite prepare_list_spec. case_decide as Hrender; [|intros [= <-]; left; auto].
  cbn [mbind result_bind].
  destruct (scan_searches _ _ _ (0, 0)) as [totals|e'] eqn:Hscan; simpl.
  - intros ->%average_Raise. left. auto.
  - intros [= <-]. apply scan_searches_Raise in Hscan; [|done..].
    destruct Hscan as [?|?]; [left; tauto|by right].
Qed.

(** A query that lacks a key column matches no row: it leaves the
    result as it is without the query, or raises at a key it lacks. *)
Lemma task2_rows_never_matches before search after rows :
  Forall (λ r, key_columns rows ⊆ dom r) rows →
  key_columns rows ⊈ dom search →
  renders search →
  task2_rows (before ++ search :: after) rows = task2_rows (before ++ after) rows ∨
  ∃ k, k ∈ key_columns rows ∧ (k ∉ dom search) ∧
       task2_rows (before ++ search :: after) rows = Raise (KeyError k).
Proof.
  intros Hrows Hmiss Hrender. destruct rows as [|row0 rows]; [by left|].
  unfold task2_rows.
  change (dom row0 ∖ {["value"]}) with (key_columns (row0 :: rows)) in *.
  set (K := key_columns (row0 :: rows)) in *.
  remember (row0 :: rows) as table eqn:Htable. clear Htable.
  rewrite !prepare_list_spec.
  destruct (decide (Forall renders (before ++ after))) as [Hall|Hnot].
  - apply Forall_app in Hall as [Hb Ha].
    rewrite decide_True by (apply Forall_app; split; [done|by constructor]).
    cbn [mbind result_bind]. rewrite !fmap_app, fmap_cons, !scan_searches_app.
    destruct (scan_searches (set_iter K) table _ (0, 0)) as [totals|e]; [|by left].
    cbn [mbind result_bind].
    change (scan_searches ?keys ?rs (?s :: ?l) ?t)
      with (scan_rows keys s rs t ≫= scan_searches keys rs l).
    destruct (scan_rows_missing (set_iter K) (rendering <$> search) table totals)
      as [->|(k & Hk & Hnone & ->)];
      [by apply rows_have_keys|by apply missing_key_exists|by left|].
    right. exists k. apply elem_of_set_iter in Hk. apply prepared_None in Hnone.
    by split_and!.
  - left. rewrite decide_False; [done|].
    intros [Hb [_ Ha]%Forall_cons]%Forall_app. apply Hnot, Forall_app. by split.
Qed.

(** It raises when the scan reaches it and some row equals it on the
    key columns it has. *)
Lemma task2_rows_missing before search after rows :
  Forall (λ r, key_columns rows ⊆ dom r) rows →
  Forall renders (before ++ search :: after) →
  (task2_rows before rows = Raise OverflowError ∨ ∃ s, task2_rows before rows = Ok s) →
  key_columns rows ⊈ dom search →
  Exists (row_matches (key_columns rows ∩ dom search) search) rows →
  ∃ k, k ∈ key_columns rows ∧ (k ∉ dom search) ∧
       task2_rows (before ++ search :: after) rows = Raise (KeyError k).
Proof.
  intros Hrows Hrender Hbefore Hmiss Hagree.
  destruct rows as [|row0 rows]; [by apply Exists_nil in Hagree|].
  unfold task2_rows in *.
  change (dom row0 ∖ {["value"]}) with (key_columns (row0 :: rows)) in *.
  set (K := key_columns (row0 :: rows)) in *.
  remember (row0 :: rows) as table eqn:Htable. clear Htable.
  rewrite prepare_list_Ok by done.
  apply Forall_app in Hrender as [Hb [Hs Ha]%Forall_cons].
  rewrite prepare_list_Ok in Hbefore by done. cbn [mbind result_bind] in *.
  destruct (scan_searches (set_iter K) table _ (0, 0)) as [totals|e] eqn:Hscan.
  - destruct (scan_rows_missing_agree (set_iter K) (rendering <$> search)
                table totals) as (k & Hk & Hnone & Hraise).
    + by apply rows_have_keys.
    + by apply missing_key_exists.
    + eapply Exists_impl; [done|]. simpl. intros r Hr k v Hk%elem_of_set_iter.
      rewrite lookup_fmap. destruct (search !! k) as [v0|] eqn:Hv0; [|done].
      intros [= <-]. assert (k ∈ K ∩ dom search) as Hin.
      { apply elem_of_intersection. split; [done|]. apply elem_of_dom. eauto. }
      apply Hr, column_matches_true in Hin as (v & s & Hv & Hstr & ->).
      rewrite Hv0 in Hv. simplify_eq. apply str_Ok in Hstr as [_ ->]. done.
    + exists k. apply elem_of_set_iter in Hk. apply prepared_None in Hnone.
      split_and!; [done..|].
      by rewrite fmap_app, fmap_cons,
        (scan_searches_missing _ _ _ _ _ _ _ _ Hscan Hraise).
  - exfalso. apply scan_searches_Raise in Hscan; [|done..].
    destruct Hbefore as [[= ->]|[s [=]]].
    destruct Hscan as [[?|[?|?]]|(? & ? & ? & ? & ? & ?)]; done.
Qed.

End key_sets.

(** C7, as the code has it.  [task2] validates no schema.  In any
    state the program reaches, on a table that is not empty: an
    exception of [task2] is that of reading or parsing a matched value
    field, of rendering a query value, or of the final division, or it
    is the [KeyError] of a key column that some query lacks, so that
    nothing raises Key-Mismatch; a query value that [str] does not
    render makes [task2] raise [ValueError].  Keys outside the key columns raise
    nothing on their account when [str] renders their values: the
    outcome is that of any query list that agrees with this one on the
    key columns.  A query that lacks a key column and
    whose values render matches no row: [task2] gives what it gives
    without that query, or raises the [KeyError] of a key column the
    query lacks.  It does raise that [KeyError] when all values of all
    queries render, [task2] on the queries before it alone returns a
    result or fails only in its final division, and some row equals the
    query on every key column the query does have. *)
Theorem task2_no_schema_validation `{SetOrder} calls search_list data rows st' :
  get_rows data (run calls initial_state) = (Ok rows, st') →
  rows ≠ [] →
  (∀ e, (task2 search_list data (run calls initial_state)).1 = Raise e →
        (e = KeyError "value" ∨ e = TypeError ∨ e = ValueError
         ∨ e = OverflowError) ∨
        ∃ search k, search ∈ search_list ∧ k ∈ key_columns rows ∧
                    (k ∉ dom search) ∧ e = KeyError k) ∧
  (¬ Forall renders search_list →
   task2 search_list data (run calls initial_state) = (Raise ValueError, st')) ∧
  (∀ search_list',
     Forall2 (λ s s', ∀ k, k ∈ key_columns rows → s !! k = s' !! k)
             search_list search_list' →
     Forall (λ s : gmap string Py.value,
               ∀ k v, k ∉ key_columns rows → s !! k = Some v → renderable v)
            search_list →
     Forall (λ s : gmap string Py.value,
               ∀ k v, k ∉ key_columns rows → s !! k = Some v → renderable v)
            search_list' →
     task2 search_list data (run calls initial_state)
     = task2 search_list' data (run calls initial_state)) ∧
  (∀ before search after,
     search_list = (before ++ search :: after)%list →
     key_columns rows ⊈ dom search →
     renders search →
     task2 search_list data (run calls initial_state)
     = task2 (before ++ after) data (run calls initial_state) ∨
     ∃ k, k ∈ key_columns rows ∧ (k ∉ dom search) ∧
          task2 search_list data (run calls initial_state)
          = (Raise (KeyError k), st')) ∧
  (∀ before search after r,
     search_list = (before ++ search :: after)%list →
     Forall renders search_list →
     ((task2 before data (run calls initial_state)).1 = Raise OverflowError ∨
      ∃ s, (task2 before data (run calls initial_state)).1 = Ok s) →
     key_columns rows ⊈ dom search →
     r ∈ rows →
     row_matches (key_columns rows ∩ dom search) search r →
     ∃ k, k ∈ key_columns rows ∧ (k ∉ dom search) ∧
          task2 search_list data (run calls initial_state)
          = (Raise (KeyError k), st')).
Proof.
  intros Hget Hne. destruct (reachable_rows _ _ _ _ Hget) as [_ Hrows]. split_and!.
  - intros e. unfold task2. rewrite Hget. simpl. by apply task2_rows_Raise.
  - intros Hnot. unfold task2. by rewrite Hget, task2_rows_unrenderable.
  - intros sl' Hall Hextra Hextra'. unfold task2. rewrite Hget. f_equal.
    by apply task2_rows_extra_keys.
  - intros before search after -> Hmiss Hrender. unfold task2. rewrite Hget.
    destruct (task2_rows_never_matches before search after rows Hrows Hmiss Hrender)
      as [->|(k & ? & ? & ->)]; [by left|right; eauto].
  - intros before search after r -> Hrender Hbefore Hmiss Hr Hagree.
    unfold task2 in *. rewrite Hget in *. simpl in Hbefore.
    destruct (task2_rows_missing before search after rows Hrows Hrender Hbefore Hmiss)
      as (k & ? & ? & ->).
    { apply Exists_exists. eauto. }
    eauto.
Qed.

(** C10, as the code has it.  In any state the program reaches, on a
    table that is not empty: two query lists that agree, query by
    query, on the key columns give the same result, whatever other keys
    the queries hold, as long as [str] renders the values of these other
    keys; and a query that has a value for every key column, whose
    values all render and which equals some row on every key column has
    a first matching row, and [task2] on that query returns the average
    of that row's value.  A value that [str] does not render, under an
    extra key or not, makes [task2] raise [ValueError]. *)
Theorem task2_key_columns_only `{SetOrder} calls data rows st' :
  get_rows data (run calls initial_state) = (Ok rows, st') →
  rows ≠ [] →
  (∀ search_list search_list',
     Forall2 (λ s s', ∀ k, k ∈ key_columns rows → s !! k = s' !! k)
             search_list search_list' →
     Forall (λ s : gmap string Py.value,
               ∀ k v, k ∉ key_columns rows → s !! k = Some v → renderable v)
            search_list →
     Forall (λ s : gmap string Py.value,
               ∀ k v, k ∉ key_columns rows → s !! k = Some v → renderable v)
            search_list' →
     task2 search_list data (run calls initial_state)
     = task2 search_list' data (run calls initial_state)) ∧
  (∀ search r,
     key_columns rows ⊆ dom search →
     renders search →
     r ∈ rows →
     row_matches (key_columns rows) search r →
     ∃ r0, first_match (key_columns rows) search rows = Some r0 ∧
           row_matches (key_columns rows) search r0 ∧
           task2 [search] data (run calls initial_state)
           = (val ← row_value r0; weighted_average [val], st')) ∧
  (∀ search_list,
     ¬ Forall renders search_list →
     task2 search_list data (run calls initial_state) = (Raise ValueError, st')).
Proof.
  intros Hget Hne. destruct (reachable_rows _ _ _ _ Hget) as [_ Hrows]. split_and!.
  - intros sl sl' Hall Hextra Hextra'. unfold task2. rewrite Hget. f_equal.
    by apply task2_rows_extra_keys.
  - intros search r Hsearch Hrender Hr Hmatch.
    destruct (find_some_elem (λ r, bool_decide (row_matches (key_columns rows) search r))
                rows r Hr) as (r0 & Hfind & Hr0%bool_decide_eq_true).
    { by apply bool_decide_eq_true. }
    exists r0. split_and!; [done..|].
    unfold task2. rewrite Hget, task2_rows_spec by (done || by constructor).
    unfold aggregate_spec. simpl. unfold first_match. rewrite Hfind. simpl.
    by destruct (row_value r0).
  - intros sl Hnot. unfold task2. by rewrite Hget, task2_rows_unrenderable.
Qed.

(** * The documented scenarios *)

(** tasks.py:64-67. *)
Example task1_currency_examples :
  let run1 side currency :=
    (task1 (H:=elements_order) (currency_query side currency) currency_table
           initial_state).1 in
  run1 "IN" "GBP" = Ok (Some "-1") ∧ run1 "IN" "PLN" = Ok (Some "1") ∧
  run1 "IN" "EUR" = Ok (Some "2") ∧ run1 "OUT" "ANY" = Ok (Some "3").
Proof. vm_compute. auto. Qed.

Lemma parse_ab_table : parse ab_table = Ok ab_rows.
Proof. vm_compute. reflexivity. Qed.

(** C6, as the code has it.  For the table text of three lines
    a,b,value / 1,2,10 / 3,4,15 and the queries a=1,b=2 and a=3,b=4,
    [task2] returns the string 11.7, which is (10*20 + 15*10) / 30 to
    one decimal place, in any state the program reaches and for any
    iteration order of sets. *)
Theorem task2_literal_scenario `{SetOrder} calls :
  (task2 ab_queries ab_table (run calls initial_state)).1 = Ok "11.7".
Proof.
  rewrite task2_result by apply run_inv. rewrite parse_ab_table.
  change (task2_rows ab_queries ab_rows = Ok "11.7").
  rewrite task2_rows_spec; [vm_compute; reflexivity|done|compute_done..].
Qed.

(** C6 fails: the documented result 12.5 is not what [task2] returns. *)
Lemma task2_literal_scenario_not_12_5 :
  (task2 (H:=elements_order) ab_queries ab_table initial_state).1 ≠ Ok "12.5".
Proof. vm_compute. discriminate. Qed.

(** * The theorems at concrete inputs *)

Lemma task1_exact_match_witness :
  task1 (H:=elements_order) (ab_query 3 4) ab_table initial_state
  = (Ok (Some "15"), cached ab_table ab_rows).
Proof.
  refine (proj1 (task1_exact_match (H:=elements_order) [] (ab_query 3 4)
                   ab_table ab_rows _ _ _ _ _)
            1%nat (ab_row "3" "4" "15") (Some "15") _ _ _ _).
  - vm_compute. reflexivity.
  - done.
  - vm_compute. reflexivity.
  - compute_done.
  - reflexivity.
  - compute_done.
  - intros j r' Hj. assert (j = 0%nat) as -> by lia. intros [= <-]. compute_done.
  - reflexivity.
Defined.

(** C1 fails on a query value that [str] does not render: a
    [ValueError], where the specification has the sentinel. *)
Lemma task1_unrenderable_query_raises :
  (task1 (H:=elements_order) {[ "a" := Py.VInt long_int ]} one_key_table
     initial_state).1
  = Raise ValueError.
Proof. vm_compute. reflexivity. Qed.

Lemma task2_weighted_average_witness :
  task2 (H:=elements_order) [ab_query 3 4] ab_table initial_state
  = (Ok "15.0", cached ab_table ab_rows).
Proof.
  assert (aggregate_spec [ab_query 3 4] ab_rows = Ok "15.0") as <- by (vm_compute; reflexivity).
  refine (proj1 (task2_weighted_average (H:=elements_order) [] [ab_query 3 4]
                   ab_table ab_rows _ _ _ _ _)).
  - vm_compute. reflexivity.
  - done.
  - compute_done.
  - compute_done.
Defined.

(** C2 fails on a query list with a query that lacks the key column:
    a [KeyError], where the specification has the average 10.0 of the
    first query's value. *)
Lemma task2_missing_key_no_average :
  (task2 (H:=elements_order) [ {[ "a" := Py.VInt 1 ]}; ∅ ] one_key_table
     initial_state).1
  = Raise (KeyError "a").
Proof. vm_compute. reflexivity. Qed.

(** The Value-Format failure: a matched value field that is no integer. *)
Example task2_value_format_error :
  (task2 (H:=elements_order) [ {[ "a" := Py.VInt 1 ]} ] word_value_table
     initial_state).1
  = Raise ValueError.
Proof. vm_compute. reflexivity. Qed.

Lemma cache_memoization_witness :
  _cache (run (H:=elements_order) [Task2 ab_queries ab_table]
           (cached currency_table currency_rows))
    !! currency_table = Some currency_rows ∧
  parse_count currency_table
    (run (H:=elements_order) [Task2 ab_queries ab_table]
       (cached currency_table currency_rows))
  = parse_count currency_table (cached currency_table currency_rows).
Proof.
  refine (proj2 (proj2
    (proj1 (cache_memoization (H:=elements_order) currency_table)
       (cached currency_table currency_rows) currency_rows _))
    [Task2 ab_queries ab_table]).
  vm_compute. reflexivity.
Defined.

(** C3 fails on a text whose parse raises: it is parsed by every call. *)
Lemma failing_text_parsed_twice :
  parse_count long_table
    (run (H:=elements_order)
       [Task1 {[ "a" := Py.VInt 1 ]} long_table; Task2 [] long_table] initial_state)
  = 2%nat.
Proof. vm_compute. reflexivity. Qed.

Lemma task1_key_mismatch_witness :
  task1 (H:=elements_order) {[ "side" := Py.VStr "OUT" ]} currency_table initial_state
  = (Raise KeyMismatch, cached currency_table currency_rows).
Proof.
  apply (task1_key_mismatch (H:=elements_order) _ _ _ currency_rows).
  - vm_compute. reflexivity.
  - done.
  - compute_done.
Defined.

Lemma long_record_fails_witness :
  (task1 (H:=elements_order) {[ "a" := Py.VInt 1 ]} long_table initial_state).1
  = Raise AttributeError ∧
  _cache (task1 (H:=elements_order) {[ "a" := Py.VInt 1 ]} long_table initial_state).2
  = _cache initial_state ∧
  (task2 (H:=elements_order) [ {[ "a" := Py.VInt 1 ]} ] long_table initial_state).1
  = Raise AttributeError ∧
  _cache (task2 (H:=elements_order) [ {[ "a" := Py.VInt 1 ]} ] long_table initial_state).2
  = _cache initial_state.
Proof.
  refine (proj1 (long_record_fails (H:=elements_order) _ _ long_table initial_state
                   ["a"; "value"] [["1"; "10"; "x"]] None _ _) _).
  - reflexivity.
  - vm_compute. reflexivity.
  - apply Exists_cons_hd. simpl. lia.
Defined.

(** C5 fails on a short record: the row is parsed with the value field
    absent, the table is cached, and [task1] returns the absent value. *)
Lemma short_record_is_cached :
  task1 (H:=elements_order) {[ "a" := Py.VInt 1 ]} short_table initial_state
  = (Ok None, cached short_table [ {[ "a" := Some "1"; "value" := None ]} ]).
Proof. vm_compute. reflexivity. Qed.

(** C7 fails on a query without the key column: a [KeyError], where the
    specification has the query contribute nothing. *)
Lemma task2_missing_key_raises :
  (task2 (H:=elements_order) [∅] one_key_table initial_state).1
  = Raise (KeyError "a").
Proof. vm_compute. reflexivity. Qed.

Lemma task2_no_schema_validation_witness :
  ∃ k, k ∈ key_columns ab_rows ∧
       (k ∉ dom ({[ "a" := Py.VInt 1 ]} : gmap string Py.value)) ∧
       task2 (H:=elements_order) [ab_query 3 4; {[ "a" := Py.VInt 1 ]}; ab_query 1 2]
         ab_table initial_state
       = (Raise (KeyError k), cached ab_table ab_rows).
Proof.
  refine (proj2 (proj2 (proj2 (proj2
            (task2_no_schema_validation (H:=elements_order) [] _ ab_table ab_rows
               _ _ _))))
            [ab_query 3 4] {[ "a" := Py.VInt 1 ]} [ab_query 1 2]
            (ab_row "1" "2" "10") _ _ _ _ _ _).
  - vm_compute. reflexivity.
  - done.
  - reflexivity.
  - compute_done.
  - right. exists "15.0". vm_compute. reflexivity.
  - compute_done.
  - compute_done.
  - compute_done.
Defined.

Lemma empty_table_sentinels_witness :
  task1 (H:=elements_order) (ab_query 1 2) header_only_table initial_state
  = (Ok (Some "-1"), cached header_only_table []) ∧
  task2 (H:=elements_order) [∅; ab_query 1 2] header_only_table initial_state
  = (Ok "0.0", cached header_only_table []).
Proof.
  apply (empty_table_sentinels (H:=elements_order)). vm_compute. reflexivity.
Defined.

Lemma field_normalization_witness :
  parse padded_table
  = Ok [ {[ "k" := Some "x"; "value" := Some "7" ]};
          {[ "k" := Some "y"; "value" := None ]} ] ∧
  ∃ raws,
    DictReader padded_table = (raws, None) ∧
    Forall2 (λ raw (row : row), ∀ k,
      match named raw !! k with
      | Some (Some s) =>
          ∃ w t, stripped_of Py.isspace s w ∧
                 stripped_of (λ c, bool_decide (c = "'"%char ∨ c = Csv.quotechar)) w t ∧
                 row !! k = Some (Some t)
      | Some None => row !! k = Some None
      | None => row !! k = None
      end) raws
      [ {[ "k" := Some "x"; "value" := Some "7" ]};
        {[ "k" := Some "y"; "value" := None ]} ].
Proof.
  assert (parse padded_table
          = Ok [ {[ "k" := Some "x"; "value" := Some "7" ]};
                 {[ "k" := Some "y"; "value" := None ]} ]) as Hparse
    by (vm_compute; reflexivity).
  split; [done|]. exact (field_normalization _ _ Hparse).
Defined.

Lemma task2_key_columns_only_witness :
  task2 (H:=elements_order) [ <["note" := Py.VStr "x"]> (ab_query 3 4) ] ab_table
    initial_state
  = task2 (H:=elements_order) [ab_query 3 4] ab_table initial_state.
Proof.
  refine (proj1 (task2_key_columns_only (H:=elements_order) [] ab_table ab_rows _ _ _)
            _ _ _ _ _).
  - vm_compute. reflexivity.
  - done.
  - constructor; [|constructor].
    change (set_Forall
              (λ k, <["note" := Py.VStr "x"]> (ab_query 3 4) !! k = ab_query 3 4 !! k)
              (key_columns ab_rows)).
    compute_done.
  - constructor; [|constructor]. intros k v _. revert k v.
    change (renders (<["note" := Py.VStr "x"]> (ab_query 3 4))). compute_done.
  - constructor; [|constructor]. intros k v _. revert k v.
    change (renders (ab_query 3 4)). compute_done.
Defined.

(** C10 fails on an extra key whose value [str] does not render: a
    [ValueError], where the query without the extra key gives 10.0. *)
Lemma task2_unrenderable_extra_key :
  (task2 (H:=elements_order)
     [ <["note" := Py.VInt long_int]> {[ "a" := Py.VInt 1 ]} ] one_key_table
     initial_state).1
  = Raise ValueError ∧
  (task2 (H:=elements_order) [ {[ "a" := Py.VInt 1 ]} ] one_key_table
     initial_state).1
  = Ok "10.0".
Proof. vm_compute. auto. Qed.

(** * Further properties of the program *)

(** * Exceptions and the cache *)

Section failures.
Context `{SetOrder}.

Lemma parse_add_char_Raise c r e : Csv.parse_add_char c r = Raise e → e = CsvError.
Proof. unfold Csv.parse_add_char. case_match; by intros [= <-]. Qed.

Lemma parse_process_char_Raise i r e :
  Csv.parse_process_char i r = Raise e → e = CsvError.
Proof.
  unfold Csv.parse_process_char, Csv.start_field.
  repeat case_match; simpl; try done; try (by intros [= <-]);
    try (by intros ?%parse_add_char_Raise);
    (destruct (Csv.parse_add_char _ _) eqn:Hadd; simpl; [done|];
     intros [= <-]; by eapply parse_add_char_Raise).
Qed.

Lemma parse_line_Raise line r e : Csv.parse_line line r = Raise e → e = CsvError.
Proof.
  revert r. induction line as [|c line IH]; intros r; simpl.
  - apply parse_process_char_Raise.
  - destruct (Csv.parse_process_char (Csv.Char c) r) eqn:Hc; simpl; [apply IH|].
    intros [= <-]. by eapply parse_process_char_Raise.
Qed.

Lemma read_records_Raise r lines records e :
  Csv.read_records r lines = (records, Some e) → e = CsvError.
Proof.
  revert r records. induction lines as [|line lines IH]; intros r records; simpl.
  - by case_match.
  - destruct (Csv.parse_line line r) as [r'|e'] eqn:Hline.
    + case_bool_decide; [|apply IH].
      destruct (Csv.read_records Csv.parse_reset lines) as [records' e''] eqn:Hrest.
      intros [= <- ->]. by eapply IH.
    + intros [= <- <-]. by eapply parse_line_Raise.
Qed.

Lemma clean_rows_Raise raws e e' :
  clean_rows raws e = Raise e' → e' = AttributeError ∨ e = Some e'.
Proof.
  induction raws as [|raw raws IH]; simpl.
  - destruct e; [|done]. intros [= <-]. by right.
  - destruct (clean_row raw) eqn:Hraw; simpl.
    + destruct (clean_rows raws e); simpl; [done|]. intros [= <-]. by apply IH.
    + intros [= <-]. left. by eapply clean_row_Raise.
Qed.

(** The parser raises on a long record or when the reader does. *)
Lemma parse_Raise data e : parse data = Raise e → e = AttributeError ∨ e = CsvError.
Proof.
  unfold parse, DictReader, Csv.reader_of.
  destruct (Csv.read_records _ _) as [[|fieldnames records] e'] eqn:Hread;
    intros [?| ->]%clean_rows_Raise; auto; right; by eapply read_records_Raise.
Qed.

Lemma all_keys_equal_Raise r search keys e :
  all_keys_equal r search keys = Raise e →
  (∃ k, k ∈ keys ∧ (r !! k = None ∨ search !! k = None) ∧ e = KeyError k) ∨
  (e = ValueError ∧ ¬ renders search).
Proof.
  induction keys as [|k keys IH]; simpl; [done|]. unfold getitem at 1 2.
  destruct (r !! k) as [f|] eqn:Hf; simpl;
    [|intros [= <-]; left; exists k; split_and!; [left|by left|done]].
  destruct (search !! k) as [v|] eqn:Hv; simpl;
    [|intros [= <-]; left; exists k; split_and!; [left|by right|done]].
  destruct (Py.str v) as [t|e'] eqn:Ht; simpl.
  - case_bool_decide; [|done]. intros [(k' & ? & ? & ?)|?]%IH; [|by right].
    left. exists k'. split_and!; [by right|done..].
  - intros [= <-]. right. apply str_Raise in Ht as [-> Hnot]. split; [done|].
    intros Hrender. by apply Hnot, (Hrender k v).
Qed.

Lemma task1_scan_Raise search keys rows e :
  task1_scan search keys rows = Raise e →
  (∃ r, r ∈ rows ∧ r !! "value" = None ∧ e = KeyError "value") ∨
  (∃ r k, r ∈ rows ∧ k ∈ keys ∧ (r !! k = None ∨ search !! k = None) ∧
          e = KeyError k) ∨
  (e = ValueError ∧ ¬ renders search).
Proof.
  induction rows as [|r rows IH]; simpl; [done|].
  destruct (all_keys_equal r search keys) as [[]|e'] eqn:Hall; simpl.
  - unfold getitem. destruct (r !! "value") eqn:Hv; [done|]. intros [= <-].
    left. exists r. split_and!; [left|done..].
  - intros [(r' & ? & ? & ?)|[(r' & k & ? & ? & ? & ?)|?]]%IH.
    + left. exists r'. split_and!; [by right|done..].
    + right. left. exists r', k. split_and!; [by right|done..].
    + by right; right.
  - intros [= <-]. right.
    apply all_keys_equal_Raise in Hall as [(k & ? & ? & ?)|?]; [|by right].
    left. exists r, k. split_and!; [left|done..].
Qed.

Lemma task1_scan_Ok search keys rows v :
  task1_scan search keys rows = Ok v →
  v = NOT_FOUND ∨ ∃ r, r ∈ rows ∧ r !! "value" = Some v.
Proof.
  induction rows as [|r rows IH]; simpl; [intros [= <-]; by left|].
  destruct (all_keys_equal r search keys) as [[]|e'] eqn:Hall; simpl; [| |done].
  - unfold getitem. destruct (r !! "value") as [v'|] eqn:Hv; [|done].
    intros [= <-]. right. exists r. split; [left|done].
  - intros [?|(r' & ? & ?)]%IH; [by left|]. right. exists r'. split; [by right|done].
Qed.

End failures.

(** X1.  In any state the program reaches, a text whose parse raises
    is not in the cache; [task1] and [task2] on it raise that exception,
    which is an [AttributeError] or a reader error, leave the cache as it
    is and count one more run of the parser: the failure is not
    memoized and every call parses the text again. *)
Theorem parse_failure_not_cached `{SetOrder} calls search search_list data e :
  parse data = Raise e →
  (e = AttributeError ∨ e = CsvError) ∧
  _cache (run calls initial_state) !! data = None ∧
  task1 search data (run calls initial_state)
  = (Raise e, State (_cache (run calls initial_state))
                    (parse_log (run calls initial_state) ++ [data])) ∧
  task2 search_list data (run calls initial_state)
  = (Raise e, State (_cache (run calls initial_state))
                    (parse_log (run calls initial_state) ++ [data])) ∧
  parse_count data (run (calls ++ [Task1 search data]) initial_state)
  = S (parse_count data (run calls initial_state)).
Proof.
  intros Hparse. pose proof (run_inv calls) as Hinv.
  assert (_cache (run calls initial_state) !! data = None) as Hc.
  { destruct (_cache _ !! data) as [rows|] eqn:Hc; [|done].
    apply Hinv in Hc. congruence. }
  split_and!; [by eapply parse_Raise|done|..].
  - unfold task1. by rewrite get_rows_miss, Hparse.
  - unfold task2. by rewrite get_rows_miss, Hparse.
  - rewrite run_snoc. simpl. rewrite task1_state, get_rows_miss, Hparse by done.
    simpl. rewrite (parse_count_snoc data data). rewrite decide_True by done. lia.
Qed.

Lemma parse_failure_not_cached_witness :
  task1 (H:=elements_order) {[ "a" := Py.VInt 1 ]} long_table
    (run (H:=elements_order) [Task2 [] long_table] initial_state)
  = (Raise AttributeError, State ∅ [long_table; long_table]).
Proof.
  refine (proj1 (proj2 (proj2
    (parse_failure_not_cached (H:=elements_order) [Task2 [] long_table]
       {[ "a" := Py.VInt 1 ]} [] long_table AttributeError _)))).
  vm_compute. reflexivity.
Defined.

(** X2.  [task1] validates the query after the table is parsed and
    cached: on a text not yet cached that parses to a non-empty table, a
    call that raises Key-Mismatch has still stored the table, and the
    next call on that text, by either function, works on the stored rows
    without a run of the parser. *)
Theorem key_mismatch_after_caching `{SetOrder} search data st rows :
  _cache st !! data = None →
  parse data = Ok rows →
  rows ≠ [] →
  dom search ≠ key_columns rows →
  (task1 search data st).1 = Raise KeyMismatch ∧
  _cache (task1 search data st).2 = <[data := rows]> (_cache st) ∧
  (∀ search',
     task1 search' data (task1 search data st).2
     = (task1_rows search' rows, (task1 search data st).2)) ∧
  (∀ search_list,
     task2 search_list data (task1 search data st).2
     = (task2_rows search_list rows, (task1 search data st).2)).
Proof.
  intros Hc Hparse Hne Hkeys.
  assert (task1 search data st
          = (Raise KeyMismatch,
             State (<[data := rows]> (_cache st)) (parse_log st ++ [data]))) as ->.
  { unfold task1. rewrite get_rows_miss, Hparse by done. f_equal.
    destruct rows as [|row0 rows]; [done|]. unfold task1_rows.
    by rewrite bool_decide_true. }
  simpl. split_and!; [done..| |].
  - intros search'. unfold task1. rewrite (get_rows_hit _ _ rows); [done|].
    simpl. by rewrite lookup_insert_eq.
  - intros search_list. unfold task2. rewrite (get_rows_hit _ _ rows); [done|].
    simpl. by rewrite lookup_insert_eq.
Qed.

Lemma key_mismatch_after_caching_witness :
  (task1 (H:=elements_order) ∅ ab_table initial_state).1 = Raise KeyMismatch ∧
  _cache (task1 (H:=elements_order) ∅ ab_table initial_state).2
  = <[ab_table := ab_rows]> ∅.
Proof.
  pose proof (key_mismatch_after_caching (H:=elements_order) ∅ ab_table
                initial_state ab_rows) as Hthm.
  refine (let '(conj H1 (conj H2 _)) := Hthm _ _ _ _ in conj H1 H2).
  - reflexivity.
  - vm_compute. reflexivity.
  - done.
  - compute_done.
Defined.

(** * What [task1] returns and raises *)

(** X3.  In any state the program reaches, the only exceptions of
    [task1] are those of the parser (an [AttributeError] on a long
    record, a reader error), Key-Mismatch, the [KeyError] of a table
    without a value column, and the [ValueError] of a query value that
    [str] does not render; on a non-empty table whose header has a value
    column and for a query whose values all render, the only exception
    is Key-Mismatch. *)
Theorem task1_exceptions `{SetOrder} calls search data e :
  (task1 search data (run calls initial_state)).1 = Raise e →
  (e = AttributeError ∨ e = CsvError ∨ e = KeyMismatch ∨ e = KeyError "value"
   ∨ e = ValueError) ∧
  (e = ValueError → ¬ renders search) ∧
  (∀ rows row0,
     parse data = Ok rows → rows !! 0%nat = Some row0 →
     "value" ∈ dom row0 → renders search → e = KeyMismatch).
Proof.
  intros Hraise. pose proof (run_inv calls) as Hinv.
  pose proof (get_rows_result data _ Hinv) as Hget. unfold task1 in Hraise.
  destruct (get_rows data (run calls initial_state)) as [[rows|e'] st'] eqn:Hrows;
    simpl in *.
  - destruct (reachable_rows _ _ _ _ Hrows) as [Hparse Hcols].
    assert (e = KeyMismatch ∨
            (e = KeyError "value" ∧ ∃ r, r ∈ rows ∧ r !! "value" = None) ∨
            (e = ValueError ∧ ¬ renders search)) as He.
    { destruct rows as [|row0 rows'] eqn:Erows; [done|]. rewrite <-Erows in *.
      assert (task1_rows search rows = Raise e) as Hraise' by (by subst rows).
      clear Hraise. subst rows. unfold task1_rows in Hraise'.
      case_bool_decide as Hkeys; [left; congruence|].
      change (dom row0 ∖ {["value"]}) with (key_columns (row0 :: rows')) in Hkeys.
      apply task1_scan_Raise in Hraise'
        as [(r & ? & ? & ?)|[(r & k & Hr & Hk%elem_of_set_iter & Hnone & _)|?]].
      - right. left. eauto.
      - exfalso. rewrite Forall_forall in Hcols.
        destruct Hnone as [Hnone|Hnone]; apply not_elem_of_dom in Hnone; [|done].
        apply Hnone, (Hcols r Hr). by rewrite <-Hkeys.
      - by right; right. }
    split_and!.
    + destruct He as [?|[[? _]|[? _]]]; tauto.
    + intros ->. by destruct He as [?|[[? _]|[_ ?]]].
    + intros rows' row0 Hparse' Hrow0 Hvalue Hrender.
      destruct He as [?|[[_ (r & Hr & Hnone)]|[_ ?]]]; [done| |done]. exfalso.
      assert (rows' = rows) as -> by congruence.
      destruct (parse_same_columns _ _ Hparse) as [K HK].
      rewrite Forall_forall in HK.
      assert (dom row0 = dom r) as Hdom.
      { rewrite (HK r Hr). apply HK. by eapply list_elem_of_lookup_2. }
      rewrite Hdom in Hvalue. by apply not_elem_of_dom in Hnone.
  - simplify_eq. symmetry in Hget. pose proof (parse_Raise _ _ Hget) as [-> | ->].
    + split_and!; [tauto|done|]. intros rows row0 Hparse. congruence.
    + split_and!; [tauto|done|]. intros rows row0 Hparse. congruence.
Qed.

Lemma task1_exceptions_witness :
  KeyMismatch = AttributeError ∨ KeyMismatch = CsvError ∨
  KeyMismatch = KeyMismatch ∨ KeyMismatch = KeyError "value" ∨
  KeyMismatch = ValueError.
Proof.
  refine (proj1 (task1_exceptions (H:=elements_order) [] ∅ ab_table KeyMismatch _)).
  vm_compute. reflexivity.
Defined.

(** X4.  [task1] returns the sentinel -1 or, verbatim, the value field
    of a row of the table it worked on: nothing is computed from a field
    and nothing else is returned. *)
Theorem task1_returns_a_field `{SetOrder} search data st v :
  (task1 search data st).1 = Ok v →
  v = Some "-1" ∨
  ∃ rows r, (get_rows data st).1 = Ok rows ∧ r ∈ rows ∧ r !! "value" = Some v.
Proof.
  unfold task1. destruct (get_rows data st) as [[rows|e] st']; simpl; [|done].
  destruct rows as [|row0 rows]; [intros [= <-]; by left|].
  unfold task1_rows. case_bool_decide; [done|].
  intros [?|(r & ? & ?)]%task1_scan_Ok; [by left|]. right. eauto.
Qed.

Lemma task1_returns_a_field_witness :
  Some "2" = Some "-1" ∨
  ∃ rows r,
    (get_rows currency_table initial_state).1 = Ok rows ∧ r ∈ rows ∧
    r !! "value" = Some (Some "2").
Proof.
  apply (task1_returns_a_field (H:=elements_order) (currency_query "IN" "EUR")).
  vm_compute. reflexivity.
Defined.

(** * Iteration order of sets *)

Section orders.

Lemma run_order (O1 O2 : SetOrder) calls st :
  run (H:=O1) calls st = run (H:=O2) calls st.
Proof.
  induction calls as [|c calls IH] using rev_ind; [done|].
  rewrite !run_snoc, IH.
  destruct c; simpl; by rewrite !task1_state || rewrite !task2_state.
Qed.

End orders.

(** X5.  When [str] renders every value of the query, the outcome of
    [task1], result or exception and state, does not depend on the
    order in which Python iterates a set, in any state the program
    reaches. *)
Theorem task1_order_independent (O1 O2 : SetOrder) calls search data :
  renders search →
  task1 (H:=O1) search data (run (H:=O1) calls initial_state)
  = task1 (H:=O2) search data (run (H:=O2) calls initial_state).
Proof.
  intros Hrender. rewrite (run_order O1 O2). unfold task1.
  destruct (get_rows data _) as [[rows|e] st'] eqn:Hget; [|done]. f_equal.
  destruct (reachable_rows (H:=O2) _ _ _ _ Hget) as [_ Hrows].
  destruct (decide (dom search = key_columns rows)) as [Hkeys|Hkeys].
  - by rewrite !task1_rows_spec.
  - destruct rows as [|row0 rows]; [done|]. unfold task1_rows.
    by rewrite !bool_decide_true.
Qed.

Lemma task1_order_independent_witness :
  task1 (H:=elements_order) (ab_query 3 4) ab_table
    (run (H:=elements_order) [] initial_state)
  = task1 (H:=reversed_order) (ab_query 3 4) ab_table
      (run (H:=reversed_order) [] initial_state).
Proof.
  apply (task1_order_independent elements_order reversed_order [] (ab_query 3 4)
           ab_table).
  compute_done.
Defined.

(** With a value that [str] does not render the order matters: one
    order meets a differing key first and goes on to the next row, the
    other renders the value first and raises. *)
Example task1_order_dependent :
  (task1 (H:=elements_order) {[ "a" := Py.VInt 7; "b" := Py.VInt long_int ]}
     ab_table initial_state).1
  ≠ (task1 (H:=reversed_order) {[ "a" := Py.VInt 7; "b" := Py.VInt long_int ]}
       ab_table initial_state).1.
Proof. vm_compute. discriminate. Qed.

(** X6.  When every query has a value for every key column, the
    outcome of [task2] does not depend on the order in which Python
    iterates a set, in any state the program reaches. *)
Theorem task2_order_independent (O1 O2 : SetOrder) calls search_list data rows st' :
  get_rows data (run (H:=O1) calls initial_state) = (Ok rows, st') →
  Forall (λ search, key_columns rows ⊆ dom search) search_list →
  task2 (H:=O1) search_list data (run (H:=O1) calls initial_state)
  = task2 (H:=O2) search_list data (run (H:=O2) calls initial_state).
Proof.
  intros Hget Hsl. destruct (reachable_rows (H:=O1) _ _ _ _ Hget) as [_ Hrows].
  rewrite <-(run_order O1 O2). unfold task2. rewrite Hget. f_equal.
  destruct rows as [|row0 rows]; [done|].
  destruct (decide (Forall renders search_list)) as [Hrender|Hrender].
  - by rewrite !task2_rows_spec.
  - unfold task2_rows. by rewrite prepare_list_spec, decide_False.
Qed.

Lemma task2_order_independent_witness :
  task2 (H:=elements_order) ab_queries ab_table (run (H:=elements_order) [] initial_state)
  = task2 (H:=reversed_order) ab_queries ab_table
      (run (H:=reversed_order) [] initial_state).
Proof.
  apply (task2_order_independent elements_order reversed_order [] ab_queries
           ab_table ab_rows (cached ab_table ab_rows)).
  - vm_compute. reflexivity.
  - compute_done.
Defined.

(** With a key missing from a query the order matters: one order meets
    the missing key first and raises, the other meets a differing key
    first and goes on. *)
Example task2_order_dependent :
  (task2 (H:=elements_order) [ {[ "a" := Py.VInt 7 ]} ] ab_table initial_state).1
  ≠ (task2 (H:=reversed_order) [ {[ "a" := Py.VInt 7 ]} ] ab_table initial_state).1.
Proof. vm_compute. discriminate. Qed.

(** * The order of the queries *)

Section query_order.
Context `{SetOrder}.

(** The scan for one query adds its contribution to the running
    totals, whatever they are. *)
Lemma scan_rows_shift keys (s : gmap string string) rows totals :
  scan_rows keys s rows totals =
  d ← scan_rows keys s rows (0, 0); Ok (totals.1 + d.1, totals.2 + d.2).
Proof.
  induction rows as [|r rows IH]; simpl.
  - destruct totals as [tv tw]. simpl. by rewrite !Z.add_0_r.
  - destruct (keys_match r s keys) as [[]|]; simpl; [|apply IH|done].
    destruct (getitem r "value") as [v|]; simpl; [|done].
    by destruct (Py.int v).
Qed.

Lemma scan_searches_contributions keys rows (l : list (gmap string string)) totals :
  scan_searches keys rows l totals =
  ds ← mapM (λ s, scan_rows keys s rows (0, 0)) l;
  Ok (totals.1 + Zsum (ds.*1), totals.2 + Zsum (ds.*2)).
Proof.
  revert totals. induction l as [|s l IH]; intros [tv tw]; simpl.
  { by rewrite !Z.add_0_r. }
  rewrite scan_rows_shift.
  destruct (scan_rows keys s rows (0, 0)) as [[dv dw]|]; simpl; [|done].
  rewrite IH. destruct (mapM _ l) as [ds|]; simpl; [|done].
  by rewrite !Z.add_assoc.
Qed.

Lemma Zsum_Permutation l l' : l ≡ₚ l' → Zsum l = Zsum l'.
Proof. unfold Zsum. induction 1; simpl; lia. Qed.

Lemma mapM_result_Permutation {A B} (f : A → result B) l l' ys :
  l ≡ₚ l' → mapM f l = Ok ys → ∃ ys', mapM f l' = Ok ys' ∧ ys ≡ₚ ys'.
Proof.
  intros Hperm. revert ys.
  induction Hperm as [|x l l' _ IH|x y l|l l' l'' _ IH1 _ IH2]; intros ys; simpl.
  - intros [= <-]. by exists [].
  - destruct (f x) as [b|]; simpl; [|done].
    destruct (mapM f l) as [bs|]; simpl; [|done]. intros [= <-].
    destruct (IH bs eq_refl) as (bs' & -> & ?). simpl. exists (b :: bs').
    split; [done|]. by constructor.
  - destruct (f y) as [b|]; simpl; [|done].
    destruct (f x) as [c|]; simpl; [|done].
    destruct (mapM f l) as [bs|]; simpl; [|done]. intros [= <-].
    exists (c :: b :: bs). split; [done|]. constructor.
  - intros Hys. destruct (IH1 ys Hys) as (ys' & Hys' & ?).
    destruct (IH2 ys' Hys') as (ys'' & ? & ?). exists ys''. split; [done|].
    by etrans.
Qed.

Lemma task2_rows_Permutation search_list search_list' rows s :
  search_list ≡ₚ search_list' →
  task2_rows search_list rows = Ok s →
  task2_rows search_list' rows = Ok s.
Proof.
  intros Hperm. destruct rows as [|row0 rows]; [done|]. unfold task2_rows.
  rewrite !prepare_list_spec.
  case_decide as Hrender; [|done]. rewrite decide_True by by rewrite <-Hperm.
  cbn [mbind result_bind].
  rewrite !scan_searches_contributions. simpl.
  destruct (mapM _ (_ <$> search_list)) as [ds|] eqn:Hds; simpl; [|done].
  destruct (mapM_result_Permutation _ _
              ((λ search : gmap string Py.value, rendering <$> search) <$> search_list')
              ds (fmap_Permutation _ _ _ Hperm) Hds) as (ds' & -> & Hperm').
  simpl. by rewrite (Zsum_Permutation _ _ (fmap_Permutation fst _ _ Hperm')),
    (Zsum_Permutation _ _ (fmap_Permutation snd _ _ Hperm')).
Qed.

End query_order.

(** X7.  A result of [task2] does not depend on the order of the
    queries: when [task2] returns a string for a list of queries, it
    returns the same string, and leaves the same state, for every
    permutation of the list. *)
Theorem task2_query_order `{SetOrder} search_list search_list' data st s :
  search_list ≡ₚ search_list' →
  (task2 search_list data st).1 = Ok s →
  task2 search_list' data st = task2 search_list data st.
Proof.
  intros Hperm. unfold task2. destruct (get_rows data st) as [[rows|e] st']; [|done].
  simpl. intros Hs. by rewrite Hs, (task2_rows_Permutation _ _ _ _ Hperm Hs).
Qed.

Lemma task2_query_order_witness :
  task2 (H:=elements_order) [ab_query 3 4; ab_query 1 2] ab_table initial_state
  = task2 (H:=elements_order) ab_queries ab_table initial_state.
Proof.
  apply (task2_query_order (H:=elements_order) ab_queries _ ab_table initial_state
           "11.7").
  - apply Permutation_swap.
  - vm_compute. reflexivity.
Defined.

(** * One matched value *)

Section one_value.

Lemma round_half_even_exact x b : 0 < b → Py.round_half_even (x * b) b = x.
Proof.
  intros Hb. unfold Py.round_half_even.
  rewrite Z.div_mul, Z.mod_mul by lia. simpl.
  by destruct b.
Qed.

Lemma log2_ratio_multiple q b :
  0 < q → 0 < b → Py.log2_ratio (q * b) b = Z.log2 q.
Proof.
  intros Hq Hb. unfold Py.log2_ratio, Py.ratio_ge_pow2.
  pose proof (Z.log2_nonneg q) as HL. pose proof (Z.log2_nonneg b).
  pose proof (Z.log2_mul_below q b Hq Hb).
  pose proof (Z.log2_mul_above q b ltac:(lia) ltac:(lia)).
  destruct (Z.log2_spec q Hq) as [Hlo Hhi].
  set (k := Z.log2 (q * b) - Z.log2 b) in *.
  rewrite (proj2 (Z.leb_le 0 k)) by lia.
  assert (k = Z.log2 q ∨ k = Z.succ (Z.log2 q)) as [->| ->] by lia.
  - rewrite (proj2 (Z.leb_le _ _)) by nia. done.
  - rewrite (proj2 (Z.leb_gt _ _)) by nia. lia.
Qed.

(** The float of an exact quotient below 2^53 is that integer: its
    tenths are ten times it. *)
Lemma true_div_exact a b q :
  0 < b → Z.abs a = q * b → 0 < q < 2 ^ 53 →
  ∃ x, Py.true_div a b = Ok x ∧ Py.f_neg x = (a <? 0) ∧ Py.tenths x = 10 * q.
Proof.
  intros Hb Ha [Hq Hq53]. unfold Py.true_div.
  rewrite (proj2 (Z.eqb_neq b 0)) by lia. rewrite (Z.abs_eq b) by lia.
  rewrite Ha. rewrite (proj2 (Z.eqb_neq (q * b) 0)) by nia.
  rewrite log2_ratio_multiple by done.
  rewrite (proj2 (Z.ltb_ge b 0)) by lia. rewrite xorb_false_r.
  pose proof (Z.log2_nonneg q) as HL.
  assert (Z.log2 q < 53) as HL53 by (apply Z.log2_lt_pow2; lia).
  rewrite Z.max_l by lia.
  destruct (0 <=? Z.log2 q - 52) eqn:He.
  - apply Z.leb_le in He. assert (Z.log2 q - 52 = 0) as -> by lia.
    rewrite Z.pow_0_r, !Z.mul_1_r, round_half_even_exact by done.
    assert (2 ^ 53 < 2 ^ 1024) by (apply Z.pow_lt_mono_r; lia).
    rewrite (proj2 (Z.leb_gt _ _)) by lia. simpl.
    eexists. split; [done|]. split; [done|]. unfold Py.tenths. simpl. lia.
  - apply Z.leb_gt in He. simpl.
    replace (q * b * 2 ^ (- (Z.log2 q - 52))) with (q * 2 ^ (52 - Z.log2 q) * b)
      by (replace (- (Z.log2 q - 52)) with (52 - Z.log2 q) by lia; ring).
    rewrite round_half_even_exact by done.
    eexists. split; [done|]. split; [done|]. unfold Py.tenths. simpl.
    rewrite (proj2 (Z.leb_gt _ _)) by lia.
    replace (- (Z.log2 q - 52)) with (52 - Z.log2 q) by lia.
    replace (10 * (q * 2 ^ (52 - Z.log2 q))) with (10 * q * 2 ^ (52 - Z.log2 q))
      by ring.
    apply round_half_even_exact. apply Z.pow_pos_nonneg; lia.
Qed.

Lemma weight_spec_pos v : 0 < weight_spec v.
Proof. unfold weight_spec. by destruct (Z.even v). Qed.

(** One matched value below 2^53 in size: the weight cancels and the
    average is the value itself, with the digit 0 after the point. *)
Lemma weighted_average_single v :
  Z.abs v < 2 ^ 53 → weighted_average [v] = Ok (pretty v +:+ ".0").
Proof.
  intros Hv. unfold weighted_average. simpl. rewrite !Z.add_0_r.
  pose proof (weight_spec_pos v) as Hw.
  rewrite (proj2 (Z.eqb_neq _ 0)) by lia.
  destruct (decide (v = 0)) as [->|Hne].
  { unfold Py.true_div. rewrite (proj2 (Z.eqb_neq _ 0)) by lia. simpl.
    by rewrite (proj2 (Z.ltb_ge _ 0)) by lia. }
  destruct (true_div_exact (v * weight_spec v) (weight_spec v) (Z.abs v))
    as (x & -> & Hneg & Htenths); [done|by rewrite Z.abs_mul, (Z.abs_eq (weight_spec v)) by lia|lia|].
  simpl. unfold Py.format_1f. rewrite Hneg, Htenths.
  rewrite (Z.mul_comm 10), Z.div_mul, Z.mod_mul by lia. f_equal.
  destruct v as [|p|p]; [done|..].
  - rewrite (proj2 (Z.ltb_ge _ 0)) by lia. done.
  - rewrite (proj2 (Z.ltb_lt _ 0)) by lia. done.
Qed.

End one_value.

(** X8.  In any state the program reaches, when the one query of the
    list has a value for every key column, [str] renders its values and
    its first matching row holds an integer smaller than 2^53 in
    absolute value, [task2] returns that integer in decimal followed by
    .0: with one match the weight cancels. *)
Theorem task2_single_match `{SetOrder} calls search data rows st' r v :
  get_rows data (run calls initial_state) = (Ok rows, st') →
  key_columns rows ⊆ dom search →
  renders search →
  first_match (key_columns rows) search rows = Some r →
  row_value r = Ok v →
  Z.abs v < 2 ^ 53 →
  task2 [search] data (run calls initial_state) = (Ok (pretty v +:+ ".0"), st').
Proof.
  intros Hget Hsearch Hrender Hfind Hv Hsmall.
  destruct (reachable_rows _ _ _ _ Hget) as [_ Hrows].
  assert (rows ≠ []) as Hne by (by destruct rows).
  unfold task2. rewrite Hget, task2_rows_spec by (done || by constructor).
  unfold aggregate_spec. simpl. rewrite Hfind. simpl. rewrite Hv. simpl.
  by rewrite weighted_average_single.
Qed.

Lemma task2_single_match_witness :
  task2 (H:=elements_order) [ab_query 3 4] ab_table initial_state
  = (Ok (pretty 15 +:+ ".0"), cached ab_table ab_rows).
Proof.
  apply (task2_single_match (H:=elements_order) [] (ab_query 3 4) ab_table ab_rows
           (cached ab_table ab_rows) (ab_row "3" "4" "15") 15).
  - vm_compute. reflexivity.
  - compute_done.
  - compute_done.
  - vm_compute. reflexivity.
  - vm_compute. reflexivity.
  - vm_compute. reflexivity.
Defined.

(** * Lookup and aggregation of one query *)

(** X9.  In any state the program reaches, for a query whose values
    [str] renders, what [task1] returns fixes what [task2] returns for
    the list of that one query: an absent value field makes [task2]
    raise [TypeError]; a field other than -1 is parsed as an integer
    and averaged alone; and the string -1, which [task1] returns both
    for no match and for a matched field -1, leaves two results, 0.0 and
    -1.0. *)
Theorem task2_after_task1 `{SetOrder} calls search data v st' :
  renders search →
  task1 search data (run calls initial_state) = (Ok v, st') →
  match v with
  | None => task2 [search] data (run calls initial_state) = (Raise TypeError, st')
  | Some s =>
      if decide (s = "-1")
      then task2 [search] data (run calls initial_state) = (Ok "0.0", st') ∨
           task2 [search] data (run calls initial_state) = (Ok "-1.0", st')
      else task2 [search] data (run calls initial_state)
           = (val ← Py.int_of_str s; weighted_average [val], st')
  end.
Proof.
  intros Hrender. unfold task1, task2.
  destruct (get_rows data _) as [[rows|e] st''] eqn:Hget; [|done].
  destruct (reachable_rows _ _ _ _ Hget) as [_ Hrows].
  intros [= Hv <-].
  destruct rows as [|row0 rows'] eqn:Erows.
  { simpl in Hv. unfold NOT_FOUND in Hv. injection Hv as <-. by left. }
  rewrite <-Erows in *.
  assert (dom search = key_columns rows) as Hkeys.
  { subst rows. unfold task1_rows in Hv. by case_bool_decide as Hk. }
  rewrite task1_rows_spec in Hv by done.
  rewrite task2_rows_spec;
    [|by subst rows|done|constructor; [by rewrite Hkeys|done]|by constructor].
  unfold lookup_spec in Hv. unfold aggregate_spec. simpl.
  destruct (first_match (key_columns rows) search rows) as [r|]; simpl.
  - unfold row_value. rewrite Hv. simpl.
    destruct v as [s|]; [|done]. destruct (decide (s = "-1")) as [->|Hs].
    + right. f_equal.
    + change (Py.int (Some s)) with (Py.int_of_str s).
      by destruct (Py.int_of_str s).
  - unfold NOT_FOUND in Hv. injection Hv as <-. by left.
Qed.

Lemma task2_after_task1_witness :
  task2 (H:=elements_order) [currency_query "IN" "EUR"] currency_table initial_state
  = (val ← Py.int_of_str "2"; weighted_average [val],
     cached currency_table currency_rows).
Proof.
  apply (task2_after_task1 (H:=elements_order) [] (currency_query "IN" "EUR")
           currency_table (Some "2") (cached currency_table currency_rows)).
  - compute_done.
  - vm_compute. reflexivity.
Defined.

(** * The keys of the cache *)

Section cache_keys.
Context `{SetOrder}.

Lemma get_rows_cached data st d :
  is_Some (_cache (get_rows data st).2 !! d) ↔
  is_Some (_cache st !! d) ∨ (d = data ∧ ∃ rows, parse data = Ok rows ∧ _cache st !! data = None).
Proof.
  unfold get_rows. destruct (_cache st !! data) as [rows|] eqn:Hc; simpl.
  - split; [by left|]. intros [?|(_ & ? & ? & ?)]; done.
  - destruct (parse data) as [rows|e] eqn:Hp; simpl.
    + destruct (decide (d = data)) as [->|Hne].
      * rewrite lookup_insert_eq. split; [|by eauto]. intros _. right. eauto.
      * rewrite lookup_insert_ne by done. split; [by left|].
        by intros [?|[? _]].
    + split; [by left|]. intros [?|(_ & ? & ? & ?)]; done.
Qed.

End cache_keys.

(** X10.  The cache holds exactly the texts that were passed to a call
    and parse: a text is a key of [_cache] after a history of calls from
    the start if and only if some call of the history was made on it and
    its parse returns. *)
Theorem cache_keys `{SetOrder} calls data :
  is_Some (_cache (run calls initial_state) !! data) ↔
  data ∈ call_data <$> calls ∧ ∃ rows, parse data = Ok rows.
Proof.
  induction calls as [|c calls IH] using rev_ind.
  { simpl. rewrite lookup_empty. split; [by intros [? ?]|]. by intros [?%elem_of_nil _]. }
  rewrite run_snoc, fmap_app, elem_of_app. simpl. rewrite list_elem_of_singleton.
  assert (run_call c (run calls initial_state)
          = (get_rows (call_data c) (run calls initial_state)).2) as ->.
  { destruct c; simpl; [apply task1_state|apply task2_state]. }
  rewrite get_rows_cached, IH. split.
  - intros [[? ?]|(-> & rows & ? & _)]; eauto.
  - intros [[?| ->] [rows Hrows]]; [left; eauto|].
    destruct (_cache (run calls initial_state) !! call_data c) as [rows'|] eqn:Hc.
    + left. apply IH. eauto.
    + right. eauto.
Qed.

(** * Quote characters and matching *)

Section quotes.
Context `{SetOrder}.

(** A field of a parsed row neither starts nor ends with a quote
    character. *)
Lemma parsed_field_no_quote data rows (r : row) k t :
  parse data = Ok rows → r ∈ rows → r !! k = Some (Some t) →
  (∀ c, head_char t = Some c → Py.char_in quote_chars c = false) ∧
  (∀ c, last_char t = Some c → Py.char_in quote_chars c = false).
Proof.
  intros (raws & _ & Hclean)%parse_Ok Hr Ht.
  apply list_elem_of_lookup in Hr as [i Hi].
  destruct (Forall2_lookup_r _ _ _ _ _ Hclean Hi) as (raw & _ & [_ ->]%clean_row_Ok).
  rewrite lookup_fmap in Ht. destruct (named raw !! k) as [[s|]|]; simplify_eq/=.
  destruct (strip_stripped_of (Py.char_in quote_chars) (Py.strip Py.isspace s))
    as (_ & _ & _ & _ & _ & ? & ?). done.
Qed.

Lemma quoted_value_no_match data rows K search k qv s c :
  parse data = Ok rows →
  k ∈ K → search !! k = Some qv → Py.str qv = Ok s →
  head_char s = Some c ∨ last_char s = Some c →
  Py.char_in quote_chars c = true →
  first_match K search rows = None.
Proof.
  intros Hparse Hk Hqv Hs Hc Hquote. apply find_none. intros r Hr.
  apply bool_decide_eq_false. intros Hmatch. specialize (Hmatch k Hk).
  apply column_matches_true in Hmatch as (v & t & Hv & Hstr & Ht).
  assert (t = s) as -> by congruence.
  destruct (parsed_field_no_quote _ _ _ _ _ Hparse Hr Ht) as [Hhead Hlast].
  destruct Hc as [Hc|Hc]; [apply Hhead in Hc|apply Hlast in Hc]; congruence.
Qed.

End quotes.

(** X11.  A parsed field never starts or ends with a single or double
    quote, so a query whose rendered value for some key column starts or
    ends with one matches no row: in any state the program reaches,
    with the query's key set the key columns and all its values
    rendered by [str], [task1] returns -1 and [task2] on that query
    alone returns 0.0. *)
Theorem quoted_query_value_never_matches `{SetOrder} calls search data rows st'
    k qv s c :
  get_rows data (run calls initial_state) = (Ok rows, st') →
  dom search = key_columns rows →
  renders search →
  k ∈ key_columns rows →
  search !! k = Some qv →
  Py.str qv = Ok s →
  head_char s = Some c ∨ last_char s = Some c →
  Py.char_in quote_chars c = true →
  task1 search data (run calls initial_state) = (Ok (Some "-1"), st') ∧
  task2 [search] data (run calls initial_state) = (Ok "0.0", st').
Proof.
  intros Hget Hkeys Hrender Hk Hqv Hs Hc Hquote.
  destruct (reachable_rows _ _ _ _ Hget) as [Hparse Hrows].
  assert (rows ≠ []) as Hne by (intros ->; set_solver).
  pose proof (quoted_value_no_match _ _ _ _ _ _ _ _ Hparse Hk Hqv Hs Hc Hquote)
    as Hnone.
  unfold task1, task2. rewrite Hget, task1_rows_spec by done.
  rewrite task2_rows_spec;
    [|done..|constructor; [by rewrite Hkeys|done]|by constructor].
  unfold lookup_spec, aggregate_spec. simpl. by rewrite Hnone.
Qed.

Lemma quoted_query_value_never_matches_witness :
  task1 (H:=elements_order) (currency_query "'IN'" "PLN") currency_table initial_state
  = (Ok (Some "-1"), cached currency_table currency_rows) ∧
  task2 (H:=elements_order) [currency_query "'IN'" "PLN"] currency_table initial_state
  = (Ok "0.0", cached currency_table currency_rows).
Proof.
  apply (quoted_query_value_never_matches (H:=elements_order) []
           (currency_query "'IN'" "PLN") currency_table currency_rows
           (cached currency_table currency_rows) "side" (Py.VStr "'IN'") "'IN'"
           "'"%char).
  - vm_compute. reflexivity.
  - vm_compute. reflexivity.
  - compute_done.
  - compute_done.
  - vm_compute. reflexivity.
  - reflexivity.
  - left. reflexivity.
  - reflexivity.
Defined.

(** * Rows and header *)

Section header.

Lemma dict_rows_length fieldnames records :
  length (dict_rows fieldnames records)
  = length (filter (λ record, record ≠ []) records).
Proof.
  induction records as [|record records IH]; simpl; [done|].
  destruct record; [by rewrite filter_cons_False by naive_solver|].
  rewrite filter_cons_True by done. simpl. by rewrite IH.
Qed.

Lemma dict_rows_short fieldnames records :
  Forall (λ raw, surplus raw = None) (dict_rows fieldnames records) →
  Forall (λ record, (length record ≤ length fieldnames)%nat) records.
Proof.
  induction records as [|record records IH]; simpl; [done|].
  destruct record as [|f record].
  - intros ?. constructor; [simpl; lia|auto].
  - intros [Hs ?]%Forall_cons. constructor; [|auto].
    destruct (decide (length fieldnames < length (f :: record))%nat) as [Hlong|]; [|lia].
    apply dict_row_surplus in Hlong as [? ?]. congruence.
Qed.

End header.

(** X12.  When the parser returns, either the text has no record at
    all and the table is empty, or the reader ended normally after a
    header and further records, none longer than the header; the table
    has one row for each of these records that is not empty, blank lines
    being skipped, and every row has exactly the header's names as its
    columns. *)
Theorem parsed_rows_follow_header data rows :
  parse data = Ok rows →
  (Csv.reader_of data = ([], None) ∧ rows = []) ∨
  ∃ header records,
    Csv.reader_of data = (header :: records, None) ∧
    Forall (λ record, (length record ≤ length header)%nat) records ∧
    length rows = length (filter (λ record, record ≠ []) records) ∧
    Forall (λ r : row, dom r = list_to_set header) rows.
Proof.
  intros (raws & Hreader & Hclean)%parse_Ok. unfold DictReader in Hreader.
  destruct (Csv.reader_of data) as [[|header records] e]; simplify_eq.
  { left. split; [done|]. by apply Forall2_nil_inv_l in Hclean. }
  right. exists header, records. split; [done|].
  assert (Forall (λ raw, surplus raw = None) (dict_rows header records)) as Hs.
  { apply Forall_forall. intros raw Hraw.
    apply list_elem_of_lookup in Hraw as [i Hi].
    destruct (Forall2_lookup_l _ _ _ _ _ Hclean Hi) as (r & _ & [? _]%clean_row_Ok).
    done. }
  split_and!.
  - by apply dict_rows_short.
  - by rewrite <-(Forall2_length _ _ _ Hclean), dict_rows_length.
  - pose proof (dict_rows_dom header records) as Hdom.
    induction Hclean as [|raw r raws rows' [Hraw ->]%clean_row_Ok _ IH]; [done|].
    apply Forall_cons in Hdom as [Hd Hdom]. apply Forall_cons in Hs as [_ Hs].
    constructor; [|by apply IH]. rewrite dom_fmap_L. by apply Hd.
Qed.

Lemma parsed_rows_follow_header_witness :
  (Csv.reader_of short_table = ([], None) ∧
   [ ({[ "a" := Some "1"; "value" := None ]} : row) ] = []) ∨
  ∃ header records,
    Csv.reader_of short_table = (header :: records, None) ∧
    Forall (λ record, (length record ≤ length header)%nat) records ∧
    length [ ({[ "a" := Some "1"; "value" := None ]} : row) ]
    = length (filter (λ record, record ≠ []) records) ∧
    Forall (λ r : row, dom r = list_to_set header)
      [ ({[ "a" := Some "1"; "value" := None ]} : row) ].
Proof.
  apply (parsed_rows_follow_header short_table). vm_compute. reflexivity.
Defined.

(** * Plain tables *)

Section plain.

Lemma parse_line_app s t r :
  Csv.parse_line (s +:+ t) r = r' ← feed s r; Csv.parse_line t r'.
Proof.
  revert r. induction s as [|c s IH]; intros r; [done|].
  change (String c s +:+ t) with (String c (s +:+ t)). cbn [Csv.parse_line feed].
  destruct (Csv.parse_process_char (Csv.Char c) r); simpl; [apply IH|done].
Qed.

Lemma plain_char_spec c :
  plain_char c = true →
  Ascii.eqb c Csv.delimiter = false ∧ Ascii.eqb c Csv.quotechar = false ∧
  Ascii.eqb c Csv.LF = false ∧ Ascii.eqb c Csv.CR = false.
Proof.
  unfold plain_char. rewrite negb_true_iff, !orb_false_iff. tauto.
Qed.

Lemma string_length_app s t :
  String.length (s +:+ t) = (String.length s + String.length t)%nat.
Proof.
  induction s as [|c s IH]; [done|].
  change (S (String.length (s +:+ t)) = S (String.length s + String.length t)).
  by f_equal.
Qed.

Lemma string_app_assoc s t u : (s +:+ t) +:+ u = s +:+ (t +:+ u).
Proof.
  induction s as [|c s IH]; [done|].
  change (String c ((s +:+ t) +:+ u) = String c (s +:+ (t +:+ u))). by f_equal.
Qed.

Lemma string_app_nil_r s : s +:+ EmptyString = s.
Proof.
  induction s as [|c s IH]; [done|].
  change (String c (s +:+ EmptyString) = String c s). by f_equal.
Qed.

(** Plain characters in an unquoted field are added to the field. *)
Lemma feed_in_field f fields field :
  string_forall plain_char f = true →
  Z.of_nat (String.length field + String.length f) ≤ Csv.field_limit →
  feed f (Csv.Reader Csv.IN_FIELD fields field)
  = Ok (Csv.Reader Csv.IN_FIELD fields (field +:+ f)).
Proof.
  revert field. induction f as [|c f IH]; intros field Hplain Hlen.
  { simpl. by rewrite string_app_nil_r. }
  simpl in Hplain. apply andb_prop in Hplain as [Hc Hplain].
  destruct (plain_char_spec c Hc) as (Hd & Hq & Hlf & Hcr).
  simpl in Hlen. cbn [feed]. unfold Csv.parse_process_char, Csv.is_newline.
  cbn [Csv.state]. rewrite Hlf, Hcr, Hd. cbn [orb].
  unfold Csv.parse_add_char. cbn [Csv.field Csv.fields Csv.state].
  rewrite (proj2 (Z.leb_gt _ _)) by lia.
  cbn [mbind result_bind]. rewrite IH; [|done|rewrite string_length_app; simpl; lia].
  by rewrite string_app_assoc.
Qed.

(** A non-empty plain field read at the start of a field. *)
Lemma feed_start_field c f fields :
  string_forall plain_char (String c f) = true →
  Z.of_nat (String.length (String c f)) ≤ Csv.field_limit →
  feed (String c f) (Csv.Reader Csv.START_FIELD fields EmptyString)
  = Ok (Csv.Reader Csv.IN_FIELD fields (String c f)).
Proof.
  intros Hplain Hlen. simpl in Hplain. apply andb_prop in Hplain as [Hc Hplain].
  destruct (plain_char_spec c Hc) as (Hd & Hq & Hlf & Hcr).
  cbn [feed]. unfold Csv.parse_process_char, Csv.start_field, Csv.is_newline.
  cbn [Csv.state]. rewrite Hlf, Hcr, Hq, Hd. cbn [orb].
  unfold Csv.parse_add_char. cbn [Csv.field Csv.fields Csv.state String.length].
  assert ((Csv.field_limit <=? Z.of_nat 0) = false) as -> by done.
  cbn [fmap result_fmap mbind result_bind].
  unfold Csv.set_state. cbn [Csv.state Csv.fields Csv.field].
  change (EmptyString +:+ String c EmptyString) with (String c EmptyString).
  rewrite feed_in_field; [done|done|]. simpl in *. lia.
Qed.

(** The end of a record's line, after its last field. *)
Lemma parse_line_end st fields field terminator :
  st = Csv.START_FIELD ∨ st = Csv.IN_FIELD →
  terminator = EmptyString ∨ terminator = nl →
  Csv.parse_line terminator (Csv.Reader st fields field)
  = Ok (Csv.Reader Csv.START_RECORD (fields ++ [field]) EmptyString).
Proof. by intros [-> | ->] [-> | ->]. Qed.

(** The rest of a record's line, from the start of a field. *)
Lemma parse_line_fields record fields terminator :
  Forall plain_field record → record ≠ [] →
  terminator = EmptyString ∨ terminator = nl →
  Csv.parse_line (record_line record terminator)
    (Csv.Reader Csv.START_FIELD fields EmptyString)
  = Ok (Csv.Reader Csv.START_RECORD (fields ++ record) EmptyString).
Proof.
  intros Hplain Hne Hterm. revert fields.
  induction Hplain as [|f record [Hf Hlen] Hrecord IH]; intros fields; [done|].
  destruct record as [|f' record].
  - cbn [record_line]. rewrite parse_line_app. destruct f as [|c f].
    + simpl feed. cbn [mbind result_bind]. by apply parse_line_end; [left|].
    + rewrite feed_start_field by done. cbn [mbind result_bind].
      by apply parse_line_end; [right|].
  - cbn [record_line]. rewrite parse_line_app.
    assert (∀ st field, st = Csv.START_FIELD ∨ st = Csv.IN_FIELD →
      Csv.parse_line (String Csv.delimiter (record_line (f' :: record) terminator))
        (Csv.Reader st fields field)
      = Ok (Csv.Reader Csv.START_RECORD (fields ++ field :: f' :: record)
              EmptyString)) as Hcomma.
    { intros st field Hst.
      change (Csv.parse_line (String ?c ?s) ?r)
        with (r' ← Csv.parse_process_char (Csv.Char c) r; Csv.parse_line s r').
      assert (Csv.parse_process_char (Csv.Char Csv.delimiter)
                (Csv.Reader st fields field)
              = Ok (Csv.Reader Csv.START_FIELD (fields ++ [field]) EmptyString))
        as -> by (by destruct Hst as [-> | ->]).
      cbn [mbind result_bind]. rewrite IH by done. by rewrite <-app_assoc. }
    destruct f as [|c f].
    + simpl feed. cbn [mbind result_bind]. by apply Hcomma; left.
    + rewrite feed_start_field by done. cbn [mbind result_bind].
      by apply Hcomma; right.
Qed.

Lemma record_line_head record terminator :
  Forall plain_field record → record ≠ [] → record ≠ [EmptyString] →
  ∃ c s, record_line record terminator = String c s ∧
         Ascii.eqb c Csv.LF = false ∧ Ascii.eqb c Csv.CR = false.
Proof.
  intros Hplain Hne Hne'. destruct record as [|f record]; [done|].
  apply Forall_cons in Hplain as [[Hf _] _]. destruct f as [|c f].
  - destruct record as [|f' record]; [done|]. cbn [record_line]. by eexists _, _.
  - simpl in Hf. apply andb_prop in Hf as [Hc _].
    destruct (plain_char_spec c Hc) as (_ & _ & ? & ?).
    destruct record; cbn [record_line]; by eexists _, _.
Qed.

(** The line of a plain record, read from the start of a record, is
    that record. *)
Lemma parse_line_record record terminator :
  plain_record record →
  terminator = EmptyString ∨ terminator = nl →
  Csv.parse_line (record_line record terminator) Csv.parse_reset
  = Ok (Csv.Reader Csv.START_RECORD record EmptyString).
Proof.
  intros (Hplain & Hne & Hne') Hterm.
  etrans; [|exact (parse_line_fields record [] terminator Hplain Hne Hterm)].
  destruct (record_line_head record terminator Hplain Hne Hne')
    as (c & s & -> & Hlf & Hcr).
  cbn [Csv.parse_line]. f_equal.
  unfold Csv.parse_process_char, Csv.parse_reset, Csv.is_newline. cbn [Csv.state].
  by rewrite Hlf, Hcr.
Qed.

Lemma readlines_ends_line s rest :
  ends_line s = true → Csv.readlines (s +:+ rest) = s :: Csv.readlines rest.
Proof.
  induction s as [|c s IH]; [done|]. destruct s as [|c' s].
  - simpl. intros ->. done.
  - intros [Hc Hs]%andb_prop. apply negb_true_iff in Hc.
    change (String c (String c' s) +:+ rest) with (String c (String c' s +:+ rest)).
    cbn [Csv.readlines]. rewrite Hc. by rewrite IH.
Qed.

Lemma readlines_no_lf s :
  no_lf s = true → s ≠ EmptyString → Csv.readlines s = [s].
Proof.
  induction s as [|c s IH]; [done|]. intros [Hc Hs]%andb_prop _.
  apply negb_true_iff in Hc. cbn [Csv.readlines]. rewrite Hc.
  destruct s as [|c' s]; [done|]. by rewrite IH.
Qed.

Lemma plain_no_lf f : string_forall plain_char f = true → no_lf f = true.
Proof.
  induction f as [|c f IH]; simpl; [done|]. intros [Hc ?]%andb_prop.
  destruct (plain_char_spec c Hc) as (_ & _ & -> & _). simpl. auto.
Qed.

Lemma ends_line_app f t :
  no_lf f = true → ends_line t = true → ends_line (f +:+ t) = true.
Proof.
  intros Hf Ht. induction f as [|c f IH]; [done|].
  simpl in Hf. apply andb_prop in Hf as [Hc Hf].
  change (String c f +:+ t) with (String c (f +:+ t)).
  assert (f +:+ t ≠ EmptyString) as Hne by (destruct f, t; done).
  cbn [ends_line]. destruct (f +:+ t) eqn:E; [done|]. rewrite Hc. by apply IH.
Qed.

Lemma no_lf_app f t : no_lf f = true → no_lf t = true → no_lf (f +:+ t) = true.
Proof.
  intros Hf Ht. induction f as [|c f IH]; [done|].
  simpl in *. apply andb_prop in Hf as [-> Hf]. auto.
Qed.

Lemma ends_line_cons c t :
  Ascii.eqb c Csv.LF = false → ends_line t = true → ends_line (String c t) = true.
Proof. intros Hc Ht. destruct t; [done|]. cbn [ends_line]. by rewrite Hc. Qed.

Lemma record_line_cons f f' record terminator :
  record_line (f :: f' :: record) terminator
  = f +:+ String Csv.delimiter (record_line (f' :: record) terminator).
Proof. done. Qed.

Lemma record_line_ends_line record :
  Forall plain_field record → ends_line (record_line record nl) = true.
Proof.
  induction 1 as [|f record [Hf _] _ IH]; [done|].
  destruct record as [|f' record].
  - by apply ends_line_app; [apply plain_no_lf|].
  - rewrite record_line_cons. apply ends_line_app; [by apply plain_no_lf|].
    by apply ends_line_cons.
Qed.

Lemma record_line_no_lf record :
  Forall plain_field record → no_lf (record_line record EmptyString) = true.
Proof.
  induction 1 as [|f record [Hf _] _ IH]; [done|].
  destruct record as [|f' record].
  - by apply no_lf_app; [apply plain_no_lf|].
  - rewrite record_line_cons. apply no_lf_app; [by apply plain_no_lf|].
    cbn [no_lf]. by rewrite IH.
Qed.

Lemma record_line_nonempty record terminator :
  Forall plain_field record → record ≠ [] → record ≠ [EmptyString] →
  record_line record terminator ≠ EmptyString.
Proof.
  intros Hplain Hne Hne'.
  by destruct (record_line_head record terminator Hplain Hne Hne') as (? & ? & -> & _).
Qed.

(** The reader yields the records of a plain table, and ends normally. *)
Lemma reader_of_write_records final_newline records :
  Forall plain_record records →
  Csv.reader_of (write_records final_newline records) = (records, None).
Proof.
  unfold Csv.reader_of.
  induction 1 as [|record records Hrecord Hrecords IH]; [done|].
  destruct records as [|record' records].
  - cbn [write_records]. destruct Hrecord as (Hplain & Hne & Hne').
    assert (Csv.readlines (record_line record (if final_newline then nl else EmptyString))
            = [record_line record (if final_newline then nl else EmptyString)]) as ->.
    { destruct final_newline.
      - rewrite <-(string_app_nil_r (record_line record nl)) at 1.
        by rewrite readlines_ends_line by by apply record_line_ends_line.
      - apply readlines_no_lf; [by apply record_line_no_lf|by apply record_line_nonempty]. }
    cbn [Csv.read_records].
    rewrite parse_line_record by (done || destruct final_newline; auto).
    by rewrite bool_decide_true.
  - change (write_records final_newline (record :: record' :: records))
      with (record_line record nl +:+ write_records final_newline (record' :: records)).
    destruct Hrecord as (Hplain & Hne & Hne').
    rewrite readlines_ends_line by by apply record_line_ends_line.
    cbn [Csv.read_records]. rewrite parse_line_record by (done || auto).
    rewrite bool_decide_true by done. by rewrite IH.
Qed.

Lemma dict_rows_plain header records :
  Forall plain_record records →
  dict_rows header records = dict_row header <$> records.
Proof.
  induction 1 as [|record records (_ & Hne & _) _ IH]; [done|].
  destruct record; [done|]. simpl. by rewrite IH.
Qed.

Lemma foldl_zip_lookup (header record : list string) j name f
    (d : gmap string (option string)) :
  NoDup header → header !! j = Some name → record !! j = Some f →
  foldl (λ d kv, <[kv.1 := Some kv.2]> d) d (zip header record) !! name
  = Some (Some f).
Proof.
  intros Hnodup. revert j record d.
  induction Hnodup as [|h header Hh _ IH]; intros j record d Hj Hf; [done|].
  destruct record as [|g record]; [done|]. destruct j as [|j]; simplify_eq/=.
  - assert (∀ l (d : gmap string (option string)),
              name ∉ l.*1 → d !! name = Some (Some f) →
              foldl (λ d kv, <[kv.1 := Some kv.2]> d) d l !! name = Some (Some f))
      as Hkeep.
    { induction l as [|[k v] l IHl]; intros d' Hnot Hd; [done|]. simpl.
      apply IHl; [set_solver|]. rewrite lookup_insert_ne; [done|]. set_solver. }
    apply Hkeep; [|by rewrite lookup_insert_eq].
    rewrite fst_zip_take. intros Hin. by apply subseteq_take in Hin.
  - by apply (IH j).
Qed.

End plain.

(** X13.  A table written as plain lines parses to its rows: when the
    header has distinct names and the header and every record are plain
    (fields without comma, double quote, CR or LF, within the field size
    limit, and not a lone empty field) and every record has as many
    fields as the header, the text of these lines, with or without a
    final newline, parses to one row for each record, in order, whose
    columns are the header's names and whose field under the name at a
    position is the record's field at that position, cleaned. *)
Theorem parse_plain_table final_newline header records :
  NoDup header →
  Forall plain_record (header :: records) →
  Forall (λ record, length record = length header) records →
  ∃ rows,
    parse (write_records final_newline (header :: records)) = Ok rows ∧
    Forall2 (λ record (r : row),
      dom r = list_to_set header ∧
      ∀ j name f, header !! j = Some name → record !! j = Some f →
                  r !! name = Some (clean_value (Some f))) records rows.
Proof.
  intros Hnodup Hplain Hlen.
  exists ((λ record, clean_value <$> named (dict_row header record)) <$> records).
  apply Forall_cons in Hplain as Hplain'. destruct Hplain' as [_ Hrecords].
  split.
  - apply parse_Ok. exists (dict_row header <$> records). split.
    + unfold DictReader. rewrite reader_of_write_records by done.
      by rewrite dict_rows_plain.
    + apply Forall2_fmap, Forall_Forall2_diag. eapply Forall_impl; [exact Hlen|].
      simpl. intros record Hrecord. apply clean_row_Ok. split; [|done].
      destruct (surplus _) eqn:Hs; [|done].
      assert (is_Some (surplus (dict_row header record))) as Hsome by eauto.
      apply dict_row_surplus in Hsome. lia.
  - apply Forall2_fmap_r, Forall_Forall2_diag. eapply Forall_impl; [exact Hlen|].
    simpl. intros record Hrecord.
    assert (dict_row header record
            = RawRow (foldl (λ d kv, <[kv.1 := Some kv.2]> d) ∅ (zip header record))
                None) as Hrow.
    { unfold dict_row. rewrite !decide_False by lia. done. }
    split.
    + rewrite dom_fmap_L. apply dict_row_dom. by rewrite Hrow.
    + intros j name f Hj Hf. rewrite Hrow, lookup_fmap. simpl.
      by rewrite (foldl_zip_lookup header record j name f).
Qed.

Lemma parse_plain_table_witness :
  ∃ rows,
    parse currency_table = Ok rows ∧
    Forall2 (λ record (r : row),
      dom r = list_to_set ["side"; "currency"; "value"] ∧
      ∀ j name f, ["side"; "currency"; "value"] !! j = Some name →
                  record !! j = Some f →
                  r !! name = Some (clean_value (Some f)))
      [["IN"; "PLN"; "1"]; ["IN"; "EUR"; "2"]; ["OUT"; "ANY"; "3"]] rows.
Proof.
  apply (parse_plain_table false ["side"; "currency"; "value"]
           [["IN"; "PLN"; "1"]; ["IN"; "EUR"; "2"]; ["OUT"; "ANY"; "3"]]).
  - compute_done.
  - repeat (constructor; [split_and!; [repeat constructor; by vm_compute|done..]|]).
    constructor.
  - repeat constructor.
Defined.

(** * The format of a result *)

(** X14.  Whatever the state, the text and the queries, a string that
    [task2] returns is a decimal with exactly one digit after the point:
    an optional minus sign, one or more digits, a point, one digit. *)
Theorem task2_result_format `{SetOrder} search_list data st s :
  (task2 search_list data st).1 = Ok s → one_decimal s.
Proof.
  unfold task2. destruct (get_rows data st) as [[rows|e] st']; [|done]. simpl.
  assert (one_decimal "0.0") as Hzero.
  { exists EmptyString, "0", "0"%char. by auto. }
  destruct rows as [|row0 rows]; [by intros [= <-]|]. unfold task2_rows.
  destruct (mapM prepare_search search_list) as [prepared|]; [|done]. simpl.
  destruct (scan_searches _ _ _ _) as [totals|]; [|done]. simpl. unfold average.
  destruct (_ =? 0); [by intros [= <-]|].
  destruct (Py.true_div _ _) as [x|] eqn:Hx; [|done]. simpl. intros [= <-].
  by eapply format_1f_one_decimal, true_div_mant_nonneg.
Qed.

Lemma task2_result_format_witness : one_decimal "11.7".
Proof.
  apply (task2_result_format (H:=elements_order) ab_queries ab_table initial_state).
  vm_compute. reflexivity.
Defined.
